(** * The publish and putData commands of the aleph client

    A shallow embedding of the publish command (the stream handlers of
    [publishStream], [publishBatch], [printBatchResults]; its source is
    the second part of [src/integration-test/ping_test.js], from line 31
    on) and of [src/src/client/cli/commands/putData.js], together with the
    properties of the ingestion-and-publication pipeline that are stated
    about them.

    The JavaScript runs on a single-threaded event loop: every callback (a
    stream event, the answer of a remote call) runs to completion, together
    with the promise reactions it triggers, before the next one starts.  A
    run is therefore modelled as a list of events folded through a
    transition function whose cases are the bodies of the callbacks.

    The promise of a batch has no rejection handler before the 'end'
    handler passes it to [Promise.all].  What a rejection does until then
    is the runtime's choice, and both choices are modelled: [step] and
    [run] are the event loop of a Node that reports the unhandled rejection
    and goes on (before version 15), [strict_step] and [strict_run] that of
    a Node that ends the process on it (from version 15 on).  The states of
    the second are states of the first. *)

From Stdlib Require Import ZArith DecimalString.
From stdpp Require Import list strings.

Local Open Scope string_scope.
Local Open Scope list_scope.
Set Warnings "-register-all".

(** ** JavaScript values *)

(** The values that [JSON.parse] produces, and [undefined], which reading a
    missing array element or property gives. *)
Inductive JsValue : Type :=
| JUndefined
| JNull
| JBool (b : bool)
| JNum (n : Z)
| JStr (s : string)
| JArr (items : list JsValue)
| JObj (fields : list (string * JsValue)).

(** [obj[key]] on the own properties of an object literal. *)
Fixpoint own_property (key : string) (fields : list (string * JsValue)) : option JsValue :=
  match fields with
  | [] => None
  | (k, v) :: rest => if String.eqb k key then Some v else own_property key rest
  end.

(** [objectPath.get(obj, key, defaultValue)] of the object-path package, for
    a path of one segment: the own property [key] of [obj], and
    [defaultValue] when [obj] is null or undefined, is no object, or has no
    such property (or has it set to [undefined]). *)
Definition objectPath_get (obj : JsValue) (key : string) (defaultValue : JsValue) : JsValue :=
  match obj with
  | JObj fields =>
      match own_property key fields with
      | Some JUndefined | None => defaultValue
      | Some v => v
      end
  | _ => defaultValue
  end.

(** [v !== s] for a string [s]: strict inequality never converts, so only
    the very same string is equal to [s]. *)
Definition strict_neq_string (v : JsValue) (s : string) : bool :=
  match v with
  | JStr t => negb (String.eqb t s)
  | _ => true
  end.

(** [Array.prototype.slice(start, stop)]: a negative bound counts from the
    end of the array, both bounds are clamped to the array, and an empty
    array results when the bounds cross. *)
Definition slice {A : Type} (l : list A) (start stop : Z) : list A :=
  let len := Z.of_nat (length l) in
  let clamp (x : Z) := if (x <? 0)%Z then Z.max (len + x) 0 else Z.min x len in
  let k := clamp start in
  let final := clamp stop in
  take (Z.to_nat (final - k)) (drop (Z.to_nat k) l).

(** Decimal rendering of a length inside a template string. *)
Definition show_nat (n : nat) : string := NilEmpty.string_of_uint (Nat.to_uint n).

(** ** Statements and the console *)

(** A statement body [{object, refs, tags}].  [object] starts as the
    self-describing object and is overwritten with the content address
    (a string) once the data blobs are stored. *)
Record Statement : Type := {
  object : JsValue;
  refs : list string;
  tags : list string
}.

(** What the command writes with [console.log] and [console.error]. *)
Inductive Console : Type :=
| LogRefsTags (rs ts : list string)
    (* `refs: ${JSON.stringify(refs)}, tags: ${JSON.stringify(tags)}` *)
| LogReport (statementId : string) (bodies : list Statement)
    (* `\nstatement id: ${statementIds[i]}` followed by the bodies *)
| LogAllPublished
    (* 'All statements published successfully' *)
| ErrPublishing (message : string)
    (* 'Error publishing statements: ', err.message *)
| ErrReading (streamName : string) (err : string).
    (* `Error reading from ${streamName}: `, err *)

(** ** printBatchResults *)

(** [objectRefs[idx]] *)
Definition element (objectRefs : list string) (idx : nat) : JsValue :=
  match objectRefs !! idx with
  | Some h => JStr h
  | None => JUndefined
  end.

(** One iteration of the loop of [printBatchResults], at loop index [i]. *)
Definition printGroup (bodyHashes : list string) (statements : list Statement)
    (compoundSize : Z) (i : nat) (statementId : string) : Console :=
  let objectRefs := slice bodyHashes (Z.of_nat i) (Z.of_nat i + compoundSize) in
  let stmts := slice statements (Z.of_nat i) (Z.of_nat i + compoundSize) in
  let bodies :=
    imap (fun idx s => {| object := element objectRefs idx; refs := refs s; tags := tags s |})
         stmts in
  LogReport statementId bodies.

(** [printBatchResults(bodyHashes, statementIds, statements, compoundSize)]:
    the loop runs over the indices of [statementIds]; its result here is
    what it prints, one report per iteration. *)
Definition printBatchResults (bodyHashes statementIds : list string)
    (statements : list Statement) (compoundSize : Z) : list Console :=
  imap (printGroup bodyHashes statements compoundSize) statementIds.

(** The report as the specification words it: the entry of the statement
    id at group index [g] holds the addresses and statements at positions
    [g * compoundSize .. g * compoundSize + compoundSize). *)
Definition specGroup (bodyHashes : list string) (statements : list Statement)
    (compoundSize : Z) (g : nat) (statementId : string) : Console :=
  let from := (Z.of_nat g * compoundSize)%Z in
  let objectRefs := slice bodyHashes from (from + compoundSize) in
  let stmts := slice statements from (from + compoundSize) in
  LogReport statementId
    (imap (fun idx s => {| object := element objectRefs idx; refs := refs s; tags := tags s |})
          stmts).

Definition specBatchResults (bodyHashes statementIds : list string)
    (statements : list Statement) (compoundSize : Z) : list Console :=
  imap (specGroup bodyHashes statements compoundSize) statementIds.

(** A stored statement: its object is the content address. *)
Definition stored (hash wki : string) : Statement :=
  {| object := JStr hash; refs := [wki]; tags := [] |}.


(** ** The collaborators of publishStream *)

(** The result [{success, error}] of [validate]; only [error.message] is
    read. *)
Inductive ValidationResult : Type :=
| ValidationOk
| ValidationFailed (message : string).

(** What [publishStream] imports from [metadata/schema]: the type of a
    checked schema, [validate(schema, obj)] and [isSelfDescribingRecord(obj)].
    Their code is not part of the command; the command is modelled over any
    implementation of the two functions. *)
Class SchemaModule : Type := {
  SelfDescribingSchema : Type;
  validate : SelfDescribingSchema -> JsValue -> ValidationResult;
  isSelfDescribingRecord : JsValue -> bool
}.

(** [publishOpts = {namespace, compound}]; [compound] is optional. *)
Record PublishOpts : Type := {
  namespace : string;
  compound : option Z
}.

(** [publishOpts.compound || 1]: a missing or zero [compound] gives 1. *)
Definition compoundSize_of (po : PublishOpts) : Z :=
  match compound po with
  | Some k => if (k =? 0)%Z then 1%Z else k
  | None => 1%Z
  end.

(** The options of [publishStream] that its handlers read.  The stream and
    the jq transform are the source of the events below; the client is the
    target of the calls. *)
Record Opts `{SchemaModule} : Type := {
  streamName : string;
  publishOpts : PublishOpts;
  batchSize : Z;
  dryRun : bool;
  skipSchemaValidation : bool;
  schemaReference : string;
  schema : SelfDescribingSchema
}.

(** One line of jq output after [JSON.parse] and the reads of [parsed.wki]
    and [parsed.obj]: either that block throws, or it yields the two
    values.  The composed filter applies [tostring] to the identifier, so
    [wki] is a string when it is there at all ([None] is null or
    undefined). *)
Inductive JqOutput : Type :=
| Unparseable (jsonString : string)
| Parsed (wki : option string) (obj : JsValue).

(** The errors thrown inside the 'data' handler. *)
Inductive FatalError : Type :=
| ParseError (jsonString : string)
    (* `Error parsing jq output: ...` *)
| ValidationError (message : string) (obj : JsValue)
    (* `Record failed validation: ...` *)
| NoIdError (obj : JsValue)
    (* `Unable to extract id. Input record: ...` *)
| SchemaMismatch (ref : JsValue) (schemaReference : string).
    (* `Record contains reference to a different schema (${ref}) than the one specified ...` *)

(** A small error monad for the handler that throws, with stdpp's
    notation [x ← c; k]. *)
Definition Throws (A : Type) : Type := FatalError + A.
Definition ok {A : Type} (a : A) : Throws A := inr a.
Definition throw {A : Type} (e : FatalError) : Throws A := inl e.

#[global] Instance Throws_ret : MRet Throws := @ok.
#[global] Instance Throws_bind : MBind Throws :=
  fun A B (k : A -> Throws B) (c : Throws A) =>
    match c with
    | inl e => inl e
    | inr a => k a
    end.

(** ** Remote calls and the promises of the batches *)

(** The answer of a remote call: the promise of [client.putData] or
    [client.publish] resolves with an array of strings or rejects with an
    error, of which [message] is read. *)
Inductive Reply : Type :=
| Resolved (values : list string)
| Failed (message : string).

(** The requests sent to the remote node; [batch] is the position of the
    batch's promise in [publishPromises]. *)
Inductive Call : Type :=
| PutDataCall (batch : nat) (bodies : list JsValue)
| PublishCall (batch : nat) (po : PublishOpts) (stmts : list Statement).

(** The promise that [publishBatch] returns, by the callback it waits in:
    the answer to [putData], the answer to [publish], or settled. *)
Inductive BatchPromise : Type :=
| AwaitPutData (stmts : list Statement)
| AwaitPublish (bodyHashes : list string) (stmts : list Statement)
| Fulfilled
| Rejected (message : string).

(** [Promise.all(publishPromises)]: not yet called (the stream has not
    ended), waiting, or settled. *)
Inductive Join : Type :=
| NotJoined
| Waiting
| Settled.

(** The variables of [publishStream] that its callbacks share, the console
    and the requests sent so far (oldest first). *)
Record State : Type := {
  statementBodies : list JsValue;
  statements : list Statement;
  publishPromises : list BatchPromise;
  join : Join;
  console : list Console;
  calls : list Call
}.

Definition initial : State :=
  {| statementBodies := []; statements := []; publishPromises := [];
     join := NotJoined; console := []; calls := [] |}.

(** The process: running, or ended by an exception that no one catches;
    the state is kept as it was when the exception was thrown. *)
Inductive Process : Type :=
| Running (s : State)
| Crashed (e : FatalError) (s : State).

Definition state_of (p : Process) : State :=
  match p with
  | Running s => s
  | Crashed _ s => s
  end.

Definition crash_of (p : Process) : option FatalError :=
  match p with
  | Running _ => None
  | Crashed e _ => Some e
  end.

(** ** publishBatch *)

(** `Expected ${statements.length} results from putting data blobs, received ${bodyHashes.length}` *)
Definition count_mismatch (expected received : nat) : string :=
  ("Expected " ++ show_nat expected ++ " results from putting data blobs, received "
     ++ show_nat received)%string.

(** [publishBatch(client, publishOpts, statementBodies, statements)] up to
    its first suspension: [client.putData(...statementBodies)] is sent and
    the promise of the chain is returned; the caller pushes it on
    [publishPromises]. *)
Definition publishBatch (s : State) (bodies : list JsValue) (stmts : list Statement) : State :=
  {| statementBodies := statementBodies s;
     statements := statements s;
     publishPromises := publishPromises s ++ [AwaitPutData stmts];
     join := join s;
     console := console s;
     calls := calls s ++ [PutDataCall (length (publishPromises s)) bodies] |}.

Definition is_fulfilled (p : BatchPromise) : bool :=
  match p with
  | Fulfilled => true
  | _ => false
  end.

Definition is_settled (p : BatchPromise) : bool :=
  match p with
  | Fulfilled | Rejected _ => true
  | _ => false
  end.

(** The reason of the first rejected promise, in array order. *)
Fixpoint first_rejection (ps : list BatchPromise) : option string :=
  match ps with
  | [] => None
  | Rejected message :: _ => Some message
  | _ :: rest => first_rejection rest
  end.

Definition print (s : State) (lines : list Console) : State :=
  {| statementBodies := statementBodies s;
     statements := statements s;
     publishPromises := publishPromises s;
     join := join s;
     console := console s ++ lines;
     calls := calls s |}.

Definition set_join (s : State) (j : Join) : State :=
  {| statementBodies := statementBodies s;
     statements := statements s;
     publishPromises := publishPromises s;
     join := j;
     console := console s;
     calls := calls s |}.

Definition set_promise (s : State) (b : nat) (p : BatchPromise) : State :=
  {| statementBodies := statementBodies s;
     statements := statements s;
     publishPromises := <[b := p]> (publishPromises s);
     join := join s;
     console := console s;
     calls := calls s |}.

Section Handlers.
Context `{SchemaModule}.
Variable opts : Opts.

(** The two reactions on [Promise.all(publishPromises)]. *)
Definition on_all_fulfilled (s : State) : State :=
  set_join (print s (if dryRun opts then [] else [LogAllPublished])) Settled.

Definition on_any_rejected (s : State) (message : string) : State :=
  set_join (print s [ErrPublishing message]) Settled.

(** The promise of batch [b] settles with [outcome].  A waiting
    [Promise.all] rejects with the first rejection it sees and fulfils when
    the last of its promises has fulfilled; once settled it reacts to
    nothing.  [Promise.all] is called in the 'end' handler, after which no
    handler pushes a promise, so the promises it waits for are all of
    [publishPromises]. *)
Definition settle (s : State) (b : nat) (outcome : BatchPromise) : State :=
  let s' := set_promise s b outcome in
  match join s with
  | Waiting =>
      match outcome with
      | Rejected message => on_any_rejected s' message
      | Fulfilled =>
          if forallb is_fulfilled (publishPromises s') then on_all_fulfilled s' else s'
      | _ => s'
      end
  | _ => s'
  end.

(** [statements.map((s, i) => { s.object = bodyHashes[i]; return s })] *)
Definition rewrite_objects (bodyHashes : list string) (stmts : list Statement) : list Statement :=
  imap (fun i st => {| object := element bodyHashes i; refs := refs st; tags := tags st |}) stmts.

(** The first [then] of [publishBatch], and the rejection of [putData]. *)
Definition on_putData_reply (s : State) (b : nat) (r : Reply) : State :=
  match publishPromises s !! b with
  | Some (AwaitPutData stmts) =>
      match r with
      | Failed message => settle s b (Rejected message)
      | Resolved bodyHashes =>
          if negb (Nat.eqb (length bodyHashes) (length stmts))
          then settle s b (Rejected (count_mismatch (length stmts) (length bodyHashes)))
          else
            let stmts' := rewrite_objects bodyHashes stmts in
            {| statementBodies := statementBodies s;
               statements := statements s;
               publishPromises := <[b := AwaitPublish bodyHashes stmts']> (publishPromises s);
               join := join s;
               console := console s;
               calls := calls s ++ [PublishCall b (publishOpts opts) stmts'] |}
      end
  | _ => s
  end.

(** The second [then] of [publishBatch], and the rejection of [publish]. *)
Definition on_publish_reply (s : State) (b : nat) (r : Reply) : State :=
  match publishPromises s !! b with
  | Some (AwaitPublish bodyHashes stmts) =>
      match r with
      | Failed message => settle s b (Rejected message)
      | Resolved statementIds =>
          settle
            (print s (printBatchResults bodyHashes statementIds stmts
                        (compoundSize_of (publishOpts opts))))
            b Fulfilled
      end
  | _ => s
  end.

(** ** The handlers of the stream *)

Definition push (s : State) (obj : JsValue) (stmt : Statement) : State :=
  {| statementBodies := statementBodies s ++ [obj];
     statements := statements s ++ [stmt];
     publishPromises := publishPromises s;
     join := join s;
     console := console s;
     calls := calls s |}.

(** [statementBodies = []; statements = []] *)
Definition reset (s : State) : State :=
  {| statementBodies := [];
     statements := [];
     publishPromises := publishPromises s;
     join := join s;
     console := console s;
     calls := calls s |}.

(** [.on('data', jsonString => ...)] *)
Definition on_data (s : State) (line : JqOutput) : Throws State :=
  match line with
  | Unparseable jsonString => throw (ParseError jsonString)
  | Parsed wki obj =>
      _ ← (if skipSchemaValidation opts then ok tt
           else match validate (schema opts) obj with
                | ValidationFailed message => throw (ValidationError message obj)
                | ValidationOk => ok tt
                end);
      wki ← match wki with
            | None => throw (NoIdError obj)
            | Some wki => if Nat.ltb (String.length wki) 1 then throw (NoIdError obj) else ok wki
            end;
      selfDescribingObj ←
        (if isSelfDescribingRecord obj
         then
           let ref := objectPath_get obj "schema" (JStr "/") in
           if strict_neq_string ref (schemaReference opts)
           then throw (SchemaMismatch ref (schemaReference opts))
           else ok obj
         else ok (JObj [("schema", JObj [("/", JStr (schemaReference opts))]);
                        ("data", obj)]));
      let refs := [wki] in
      let tags := [] in
      if dryRun opts then ok (print s [LogRefsTags refs tags])
      else
        let stmt := {| object := selfDescribingObj; refs := refs; tags := tags |} in
        let s := push s obj stmt in
        if (Z.of_nat (length (statementBodies s)) >=? batchSize opts)%Z
        then ok (reset (publishBatch s (statementBodies s) (statements s)))
        else ok s
  end.

(** [.on('error', err => console.error(...))] *)
Definition on_error (s : State) (err : string) : State :=
  print s [ErrReading (streamName opts) err].

(** [Promise.all(publishPromises).then(...).catch(...)] at the moment of
    the call: the reactions of the promises that are settled already run
    in array order, so a rejection among them wins by position. *)
Definition promise_all (s : State) : State :=
  match first_rejection (publishPromises s) with
  | Some message => on_any_rejected s message
  | None =>
      if forallb is_fulfilled (publishPromises s) then on_all_fulfilled s
      else set_join s Waiting
  end.

(** [.on('end', () => ...)] *)
Definition on_end (s : State) : State :=
  promise_all
    (if Nat.ltb 0 (length (statementBodies s))
     then publishBatch s (statementBodies s) (statements s)
     else s).

(** ** The event loop *)

(** What the environment delivers: the events of the stream piped through
    jq, and the answers of the remote node to the two calls of batch [b]. *)
Inductive Event : Type :=
| StreamData (line : JqOutput)
| StreamError (err : string)
| StreamEnd
| PutDataReply (b : nat) (r : Reply)
| PublishReply (b : nat) (r : Reply).

(** A readable stream emits 'end' once and nothing after it. *)
Definition stream_ended (s : State) : bool :=
  match join s with
  | NotJoined => false
  | _ => true
  end.

(** One turn of the event loop.  An exception thrown by the 'data' handler
    is caught by no one and ends the process; an answer for which no
    callback waits is dropped.

    Runtime assumption: the promise of a batch has no rejection handler
    until [Promise.all] attaches one in the 'end' handler.  [step] is the
    event loop of a runtime that reports a rejection nobody handles and
    lets the process go on (Node before version 15, or
    [--unhandled-rejections=warn]).  A runtime that ends the process there
    (Node from version 15 on) is [strict_step] below; it reaches the states
    of [step] and stops at the first batch rejected before 'end'. *)
Definition step (p : Process) (ev : Event) : Process :=
  match p with
  | Crashed _ _ => p
  | Running s =>
      match ev with
      | StreamData line =>
          if stream_ended s then p
          else match on_data s line with
               | inl e => Crashed e s
               | inr s' => Running s'
               end
      | StreamError err => if stream_ended s then p else Running (on_error s err)
      | StreamEnd => if stream_ended s then p else Running (on_end s)
      | PutDataReply b r => Running (on_putData_reply s b r)
      | PublishReply b r => Running (on_publish_reply s b r)
      end
  end.

Definition run (trace : list Event) : Process :=
  fold_left step trace (Running initial).

End Handlers.

(** ** The putData command *)

Module PutData.

(** What the command writes to the console. *)
Inductive Output : Type :=
| LogHash (h : string)
| ErrMessage (message : string)
| ErrReadingFrom (streamName : string) (err : string).

(** The variable [items] of the handler, the [client.putData] calls made so
    far (oldest first) and the console. *)
Record State : Type := {
  items : list JsValue;
  sent : list (list JsValue);
  output : list Output
}.

Definition initial : State := {| items := []; sent := []; output := [] |}.

(** The events of the stream piped through [ndjson.parse()], and the
    answers to the [putData] calls. *)
Inductive Event : Type :=
| Data (obj : JsValue)
| Error (err : string)
| End
| Answer (r : Reply).

Section Handler.
Variable batchSize : Z.
Variable streamName : string.

(** [.on('data', obj => ...)] *)
Definition on_data (s : State) (obj : JsValue) : State :=
  let items := items s ++ [obj] in
  if (Z.of_nat (length items) >=? batchSize)%Z
  then {| items := []; sent := sent s ++ [items]; output := output s |}
  else {| items := items; sent := sent s; output := output s |}.

(** [.on('error', err => console.error(...))] *)
Definition on_error (s : State) (err : string) : State :=
  {| items := items s; sent := sent s;
     output := output s ++ [ErrReadingFrom streamName err] |}.

(** The two callbacks of [client.putData(...items).then(_, _)]. *)
Definition on_answer (s : State) (r : Reply) : State :=
  {| items := items s; sent := sent s;
     output := output s ++ match r with
                           | Resolved hashes => map LogHash hashes
                           | Failed message => [ErrMessage message]
                           end |}.

(** One turn of the event loop; the command registers no handler for
    'end'. *)
Definition step (s : State) (ev : Event) : State :=
  match ev with
  | Data obj => on_data s obj
  | Error err => on_error s err
  | End => s
  | Answer r => on_answer s r
  end.

Definition run (trace : list Event) : State := fold_left step trace initial.

End Handler.

(** The records of a trace, in order. *)
Definition records (trace : list Event) : list JsValue :=
  omap (fun ev => match ev with Data obj => Some obj | _ => None end) trace.

Definition is_data (ev : Event) : bool :=
  match ev with
  | Data _ => true
  | _ => false
  end.

End PutData.

(** ** Example collaborators and runs *)

(** The schema link [obj.schema['/']] that a self-describing record
    carries. *)
Definition schema_link (obj : JsValue) : option string :=
  match obj with
  | JObj fields =>
      match own_property "schema" fields with
      | Some (JObj link) =>
          match own_property "/" link with
          | Some (JStr ref) => Some ref
          | _ => None
          end
      | _ => None
      end
  | _ => None
  end.

(** An implementation of the schema module for the concrete runs below;
    the properties hold for every implementation.  A record is
    self-describing when it has the shape the command itself builds,
    [{schema: {'/': ref}, data: ...}]; the validator accepts every object
    and rejects every other value. *)
Definition demo_schema : SchemaModule :=
  {| SelfDescribingSchema := unit;
     validate := fun _ obj =>
       match obj with
       | JObj _ => ValidationOk
       | _ => ValidationFailed "is not of a type(s) object"
       end;
     isSelfDescribingRecord := fun obj =>
       match schema_link obj, objectPath_get obj "data" JUndefined with
       | Some _, JObj _ => true
       | _, _ => false
       end |}.

Definition demo_opts (size : Z) (dry : bool) (k : option Z) : @Opts demo_schema :=
  {| streamName := "standard input";
     publishOpts := {| namespace := "images.demo"; compound := k |};
     batchSize := size;
     dryRun := dry;
     skipSchemaValidation := false;
     schemaReference := "QmSchema";
     schema := (tt : @SelfDescribingSchema demo_schema) |}.

Definition rec_a : JsValue := JObj [("a", JNum 1)].
Definition rec_b : JsValue := JObj [("a", JNum 2)].
Definition rec_c : JsValue := JObj [("a", JNum 3)].
Definition rec_linked (ref : string) : JsValue :=
  JObj [("schema", JObj [("/", JStr ref)]); ("data", rec_a)].

(** Three records with identifiers "1", "2", "3", then the end of the
    stream. *)
Definition three_records : list Event :=
  [StreamData (Parsed (Some "1") rec_a);
   StreamData (Parsed (Some "2") rec_b);
   StreamData (Parsed (Some "3") rec_c);
   StreamEnd].

(** Two batches of one record each; both store calls fail after the end of
    the stream, batch 0 first. *)
Definition two_failures : list Event :=
  [StreamData (Parsed (Some "1") rec_a);
   StreamData (Parsed (Some "2") rec_b);
   StreamEnd;
   PutDataReply 0 (Failed "e0");
   PutDataReply 1 (Failed "e1")].

(** Two batches of one record each; the store call of the first fails
    while the stream flows. *)
Definition early_failure : list Event :=
  [StreamData (Parsed (Some "1") rec_a);
   PutDataReply 0 (Failed "e0");
   StreamData (Parsed (Some "2") rec_b);
   StreamEnd].

(** Two batches of one record each; both store calls fail while the stream
    flows, that of the second batch first. *)
Definition two_early_failures : list Event :=
  [StreamData (Parsed (Some "1") rec_a);
   StreamData (Parsed (Some "2") rec_b);
   PutDataReply 1 (Failed "e1");
   PutDataReply 0 (Failed "e0");
   StreamEnd].

(** A line that does not parse, followed by a valid record. *)
Definition invalid_then_valid : list Event :=
  [StreamData (Unparseable "{");
   StreamData (Parsed (Some "1") rec_a);
   StreamEnd].


(** One record, flushed at once; its store call and its publish call
    succeed, then the stream ends. *)
Definition one_published : list Event :=
  [StreamData (Parsed (Some "1") rec_a);
   PutDataReply 0 (Resolved ["h0"]);
   PublishReply 0 (Resolved ["s0"]);
   StreamEnd].

(** One batch of three records published as compound statements of two:
    the node answers with three addresses and two statement ids. *)
Definition compound_run : list Event :=
  three_records ++
  [PutDataReply 0 (Resolved ["h0"; "h1"; "h2"]);
   PublishReply 0 (Resolved ["s0"; "s1"])].

(** ** Vocabulary of the properties *)

(** The batch a request belongs to, and the payloads of the store
    requests, in the order they were sent. *)
Definition call_batch (c : Call) : nat :=
  match c with
  | PutDataCall b _ => b
  | PublishCall b _ _ => b
  end.

Definition stored_batches (cs : list Call) : list (list JsValue) :=
  omap (fun c => match c with PutDataCall _ bodies => Some bodies | _ => None end) cs.

Definition is_publish_call (c : Call) : bool :=
  match c with
  | PublishCall _ _ _ => true
  | _ => false
  end.

(** The lines of jq output that reach the 'data' handler: those emitted
    before the stream ends. *)
Fixpoint delivered (trace : list Event) : list JqOutput :=
  match trace with
  | [] => []
  | StreamEnd :: _ => []
  | StreamData line :: rest => line :: delivered rest
  | _ :: rest => delivered rest
  end.

(** The answers addressed to batch [b]. *)
Definition answers (b : nat) (ev : Event) : bool :=
  match ev with
  | PutDataReply b' _ | PublishReply b' _ => Nat.eqb b' b
  | _ => false
  end.

(** The trace without the answers to batch [b]: that batch is left
    waiting. *)
Definition unanswered (b : nat) (trace : list Event) : list Event :=
  filter (fun ev => answers b ev = false) trace.

Definition publish_errors (out : list Console) : list string :=
  omap (fun line => match line with ErrPublishing message => Some message | _ => None end) out.


(** Every request belongs to a batch whose promise exists. *)
Definition calls_bounded (s : State) : Prop :=
  forall c, c ∈ calls s -> call_batch c < length (publishPromises s).

(** No statement carries a tag: in the buffer, in the promises, in the
    publish requests and on the console. *)
Definition no_tags (stmts : list Statement) : Prop :=
  Forall (fun st => tags st = []) stmts.

Definition promise_no_tags (p : BatchPromise) : Prop :=
  match p with
  | AwaitPutData stmts | AwaitPublish _ stmts => no_tags stmts
  | _ => True
  end.

Definition call_no_tags (c : Call) : Prop :=
  match c with
  | PublishCall _ _ stmts => no_tags stmts
  | PutDataCall _ _ => True
  end.

Definition line_no_tags (line : Console) : Prop :=
  match line with
  | LogRefsTags _ ts => ts = []
  | LogReport _ bodies => no_tags bodies
  | _ => True
  end.

Definition tags_empty (s : State) : Prop :=
  no_tags (statements s) /\
  Forall promise_no_tags (publishPromises s) /\
  Forall call_no_tags (calls s) /\
  Forall line_no_tags (console s).

(** The two buffers grow together. *)
Definition aligned (s : State) : Prop :=
  length (statementBodies s) = length (statements s).

(** While a batch waits for the answer of the store, its store request has
    been sent, with as many payloads as the batch has statements, and no
    publish request has been sent for it. *)
Definition awaiting_store (s : State) : Prop :=
  forall b stmts,
    publishPromises s !! b = Some (AwaitPutData stmts) ->
    (forall po sts, PublishCall b po sts ∉ calls s) /\
    exists bodies, PutDataCall b bodies ∈ calls s /\ length bodies = length stmts.

Definition batch_inv (s : State) : Prop :=
  aligned s /\ calls_bounded s /\ awaiting_store s.

(** Batch [b] is rejected with [message] and nothing was published for it. *)
Definition rejected_unpublished (b : nat) (message : string) (s : State) : Prop :=
  publishPromises s !! b = Some (Rejected message) /\
  forall po sts, PublishCall b po sts ∉ calls s.

Definition is_rejected (p : BatchPromise) : bool :=
  match p with
  | Rejected _ => true
  | _ => false
  end.

(** How often the success message was printed. *)
Definition successes (out : list Console) : nat :=
  length (omap (fun line => match line with LogAllPublished => Some tt | _ => None end) out).

(** The requests other than the publish request of batch [b]. *)
Definition ingest_calls (b : nat) (cs : list Call) : list Call :=
  filter (fun c => is_publish_call c && Nat.eqb (call_batch c) b = false) cs.

(** Two states that differ at most in the promise of batch [b], its publish
    request, the console and the state of [Promise.all]. *)
Definition agree_except (b : nat) (s s' : State) : Prop :=
  stream_ended s = stream_ended s' /\
  statementBodies s = statementBodies s' /\
  statements s = statements s' /\
  length (publishPromises s) = length (publishPromises s') /\
  (forall b', b' <> b -> publishPromises s !! b' = publishPromises s' !! b') /\
  ingest_calls b (calls s) = ingest_calls b (calls s').

Definition agree_except_proc (b : nat) (p p' : Process) : Prop :=
  crash_of p = crash_of p' /\ agree_except b (state_of p) (state_of p').

(** Every batch error reaches the console. *)
Definition every_batch_error_logged (s : State) : Prop :=
  forall b message,
    publishPromises s !! b = Some (Rejected message) -> ErrPublishing message ∈ console s.

Section Validity.
Context `{SchemaModule}.
Variable opts : Opts.

(** A record the 'data' handler accepts: its line parses, it passes
    validation unless that is skipped, its identifier is a non-empty
    string, and a self-describing record passes the comparison the handler
    makes, [objectPath.get(obj, 'schema', '/') === schemaReference].  This
    is acceptance by the code, not validity as the specification words it
    (for that see [spec_valid]): the comparison fails for every record
    whose [schema] property is a link object.  The result is the identifier
    and the object. *)
Definition valid_record (line : JqOutput) : option (string * JsValue) :=
  match line with
  | Parsed (Some wki) obj =>
      let validated :=
        skipSchemaValidation opts ||
        match validate (schema opts) obj with
        | ValidationOk => true
        | ValidationFailed _ => false
        end in
      let identified := negb (Nat.eqb (String.length wki) 0) in
      let described :=
        negb (isSelfDescribingRecord obj) ||
        negb (strict_neq_string (objectPath_get obj "schema" (JStr "/")) (schemaReference opts)) in
      if validated && identified && described then Some (wki, obj) else None
  | _ => None
  end.


(** [selfDescribingObj] for a record that passed the checks. *)
Definition describe (obj : JsValue) : JsValue :=
  if isSelfDescribingRecord obj then obj
  else JObj [("schema", JObj [("/", JStr (schemaReference opts))]); ("data", obj)].

(** The rest of the 'data' handler, after the checks. *)
Definition accept (s : State) (wki : string) (obj : JsValue) : State :=
  if dryRun opts then print s [LogRefsTags [wki] []]
  else
    let s' := push s obj {| object := describe obj; refs := [wki]; tags := [] |} in
    if (Z.of_nat (length (statementBodies s')) >=? batchSize opts)%Z
    then reset (publishBatch s' (statementBodies s') (statements s'))
    else s'.



(** An error message is printed only once every batch has settled. *)
Definition errors_logged_after_all_settled (trace : list Event) : Prop :=
  forall pre post message,
    trace = pre ++ post ->
    ErrPublishing message ∈ console (state_of (run opts pre)) ->
    Forall (fun p => is_settled p = true) (publishPromises (state_of (run opts pre))).


(** What the console holds of the outcome of the run, by the state of
    [Promise.all]: nothing before it settles; once settled, either one
    error message, that of a rejected batch, or no error message, every
    batch fulfilled, and the success message unless the run is a dry run. *)
Definition join_inv (s : State) : Prop :=
  match join s with
  | NotJoined => publish_errors (console s) = [] /\ successes (console s) = 0
  | Waiting =>
      publish_errors (console s) = [] /\ successes (console s) = 0 /\
      Forall (fun p => is_rejected p = false) (publishPromises s) /\
      ~ Forall (fun p => p = Fulfilled) (publishPromises s)
  | Settled =>
      (exists message b,
         publish_errors (console s) = [message] /\ successes (console s) = 0 /\
         publishPromises s !! b = Some (Rejected message)) \/
      (publish_errors (console s) = [] /\
       Forall (fun p => p = Fulfilled) (publishPromises s) /\
       successes (console s) = if dryRun opts then 0 else 1)
  end.

End Validity.

(** ** Vocabulary of the further properties *)

(** The batches of the store requests and of the publish requests, in the
    order the requests were sent. *)
Definition store_batches (cs : list Call) : list nat :=
  omap (fun c => match c with PutDataCall b _ => Some b | _ => None end) cs.

Definition publish_batches (cs : list Call) : list nat :=
  omap (fun c => match c with PublishCall b _ _ => Some b | _ => None end) cs.

(** How a process ends, and a process of the runtime that ends on an
    unhandled rejection; the state is kept as it was at the end. *)
Inductive Exit : Type :=
| UncaughtException (e : FatalError)
| UnhandledRejection (message : string).

Inductive StrictProcess : Type :=
| Going (s : State)
| Exited (x : Exit) (s : State).

Definition strict_state (p : StrictProcess) : State :=
  match p with
  | Going s => s
  | Exited _ s => s
  end.

Definition exit_of (p : StrictProcess) : option Exit :=
  match p with
  | Going _ => None
  | Exited x _ => Some x
  end.

(** A statement with exactly one reference, a non-empty identifier. *)
Definition single_ref (st : Statement) : Prop :=
  exists id, refs st = [id] /\ id <> "".

(** A statement as it is published: its object is a content address. *)
Definition addressed (st : Statement) : Prop :=
  (exists h, object st = JStr h) /\ single_ref st /\ tags st = [].

(** What the putData command prints on one event. *)
Definition putData_lines (streamName : string) (ev : PutData.Event) : list PutData.Output :=
  match ev with
  | PutData.Data _ | PutData.End => []
  | PutData.Error err => [PutData.ErrReadingFrom streamName err]
  | PutData.Answer (Resolved hashes) => map PutData.LogHash hashes
  | PutData.Answer (Failed message) => [PutData.ErrMessage message]
  end.

Section FurtherVocabulary.
Context `{SchemaModule}.
Variable opts : Opts.

(** A statement as the 'data' handler drafts it for the payload [obj]. *)
Definition drafted (obj : JsValue) (st : Statement) : Prop :=
  object st = describe opts obj /\ single_ref st /\ tags st = [].

(** The checks of the 'data' handler, in their order: the line parses;
    the object passes validation, unless validation is skipped; the
    identifier is there and not empty; the [schema] property of a
    self-describing object is strictly equal to the schema reference.  The
    result is the error of the first check that fails. *)
Definition rejection (line : JqOutput) : option FatalError :=
  match line with
  | Unparseable jsonString => Some (ParseError jsonString)
  | Parsed wki obj =>
      match (if skipSchemaValidation opts then ValidationOk
             else validate (schema opts) obj) with
      | ValidationFailed message => Some (ValidationError message obj)
      | ValidationOk =>
          match wki with
          | None => Some (NoIdError obj)
          | Some wki =>
              if Nat.ltb (String.length wki) 1 then Some (NoIdError obj)
              else
                let ref := objectPath_get obj "schema" (JStr "/") in
                if isSelfDescribingRecord obj
                   && strict_neq_string ref (schemaReference opts)
                then Some (SchemaMismatch ref (schemaReference opts))
                else None
          end
      end
  end.

(** The error of the first line that the handler rejects. *)
Fixpoint first_fatal (lines : list JqOutput) : option FatalError :=
  match lines with
  | [] => None
  | line :: rest =>
      match rejection line with
      | Some e => Some e
      | None => first_fatal rest
      end
  end.

(** What the batches hold: the buffer pairs payloads with their drafts; a
    batch that waits for the store holds the drafts of the payloads of its
    store request; a batch that waits for the publish call holds the
    statements with the returned addresses. *)
Definition contents_inv (s : State) : Prop :=
  Forall2 drafted (statementBodies s) (statements s) /\
  (forall b stmts bodies,
     publishPromises s !! b = Some (AwaitPutData stmts) ->
     PutDataCall b bodies ∈ calls s ->
     Forall2 drafted bodies stmts) /\
  (forall b hashes stmts,
     publishPromises s !! b = Some (AwaitPublish hashes stmts) ->
     Forall2 (fun h st => object st = JStr h) hashes stmts /\
     Forall addressed stmts) /\
  (forall b po stmts,
     PublishCall b po stmts ∈ calls s ->
     po = publishOpts opts /\ Forall addressed stmts).

(** Every batch has one store request, numbered in flush order, and at
    most one publish request, sent after its store call was answered. *)
Definition requests_inv (s : State) : Prop :=
  store_batches (calls s) = seq 0 (length (publishPromises s)) /\
  NoDup (publish_batches (calls s)) /\
  (forall b, b ∈ publish_batches (calls s) ->
     exists p, publishPromises s !! b = Some p /\ forall stmts, p <> AwaitPutData stmts).

(** The lines a dry run may print. *)
Definition dry_line (line : Console) : Prop :=
  (exists id, line = LogRefsTags [id] []) \/
  (exists err, line = ErrReading (streamName opts) err).

(** *** A runtime that ends the process on an unhandled rejection *)

(** The rejection with which an answer settles the waiting promise of its
    batch, if it does: a failed store call, a store answer with the wrong
    number of addresses, a failed publish call. *)
Definition rejection_by (s : State) (ev : Event) : option string :=
  match ev with
  | PutDataReply b r =>
      match publishPromises s !! b, r with
      | Some (AwaitPutData stmts), Failed message => Some message
      | Some (AwaitPutData stmts), Resolved bodyHashes =>
          if Nat.eqb (length bodyHashes) (length stmts) then None
          else Some (count_mismatch (length stmts) (length bodyHashes))
      | _, _ => None
      end
  | PublishReply b r =>
      match publishPromises s !! b, r with
      | Some (AwaitPublish _ _), Failed message => Some message
      | _, _ => None
      end
  | _ => None
  end.

(** One turn of the event loop of such a runtime: the turn itself is that
    of [step]; when it leaves a batch promise rejected while the stream has
    not ended, no handler is attached to the promise and the process
    ends.  After 'end' every promise has the handlers of [Promise.all]. *)
Definition strict_step (p : StrictProcess) (ev : Event) : StrictProcess :=
  match p with
  | Exited _ _ => p
  | Going s =>
      match step opts (Running s) ev with
      | Crashed e s' => Exited (UncaughtException e) s'
      | Running s' =>
          match rejection_by s ev with
          | Some message =>
              if stream_ended s then Going s' else Exited (UnhandledRejection message) s'
          | None => Going s'
          end
      end
  end.

Definition strict_run (trace : list Event) : StrictProcess :=
  fold_left strict_step trace (Going initial).

(** *** Validity as the specification words it *)




(** What the answers to batch [b] leave alone: whether and how the process
    ends, the buffer, the store requests, the promises and the requests of
    every other batch. *)
Definition isolated_from (b : nat) (p p' : Process) : Prop :=
  crash_of p = crash_of p' /\
  statementBodies (state_of p) = statementBodies (state_of p') /\
  stored_batches (calls (state_of p)) = stored_batches (calls (state_of p')) /\
  (forall b', b' <> b ->
     publishPromises (state_of p) !! b' = publishPromises (state_of p') !! b') /\
  (forall c, call_batch c <> b -> (c ∈ calls (state_of p) <-> c ∈ calls (state_of p'))).

(** Batch [b] is rejected with [message] and no batch before it in
    [publishPromises] is rejected. *)
Definition first_rejected (s : State) (b : nat) (message : string) : Prop :=
  publishPromises s !! b = Some (Rejected message) /\
  forall b' message', b' < b -> publishPromises s !! b' <> Some (Rejected message').

Definition none_rejected (s : State) : Prop :=
  forall b message, publishPromises s !! b <> Some (Rejected message).



End FurtherVocabulary.

(** * Properties *)

Section Properties.
Context `{SchemaModule}.
Variable opts : Opts.

Lemma run_app (pre post : list Event) :
  run opts (pre ++ post) = fold_left (step opts) post (run opts pre).
Proof. unfold run. apply fold_left_app. Qed.

Lemma run_snoc (trace : list Event) (ev : Event) :
  run opts (trace ++ [ev]) = step opts (run opts trace) ev.
Proof. rewrite run_app. reflexivity. Qed.

Lemma crashed_forever (trace : list Event) (e : FatalError) (s : State) :
  fold_left (step opts) trace (Crashed e s) = Crashed e s.
Proof. induction trace as [|ev trace IH]; [reflexivity | exact IH]. Qed.

(** A property of processes that holds initially and is kept by every turn
    of the event loop holds after every run. *)
Lemma run_invariant (P : Process -> Prop) :
  P (Running initial) ->
  (forall p ev, P p -> P (step opts p ev)) ->
  forall trace, P (run opts trace).
Proof.
  intros Hinit Hstep trace.
  induction trace as [|ev trace IH] using rev_ind.
  - exact Hinit.
  - rewrite run_snoc. apply Hstep, IH.
Qed.

(** The 'data' handler throws exactly on the invalid records. *)
Lemma on_data_invalid (s : State) (line : JqOutput) :
  valid_record opts line = None -> exists e, on_data opts s line = inl e.
Proof.
  destruct line as [raw | [wki|] obj]; simpl; intros Hv.
  - eexists; reflexivity.
  - unfold on_data.
    destruct (skipSchemaValidation opts); simpl in *.
    + destruct wki as [|c wki]; simpl in *; [eexists; reflexivity|].
      destruct (isSelfDescribingRecord obj); simpl in *; [|discriminate].
      destruct (strict_neq_string _ _); simpl in *; [eexists; reflexivity | discriminate].
    + destruct (validate (schema opts) obj); simpl in *; [|eexists; reflexivity].
      destruct wki as [|c wki]; simpl in *; [eexists; reflexivity|].
      destruct (isSelfDescribingRecord obj); simpl in *; [|discriminate].
      destruct (strict_neq_string _ _); simpl in *; [eexists; reflexivity | discriminate].
  - unfold on_data.
    destruct (skipSchemaValidation opts); simpl; [eexists; reflexivity|].
    destruct (validate (schema opts) obj); eexists; reflexivity.
Qed.

Lemma on_data_valid (s : State) (line : JqOutput) (wki : string) (obj : JsValue) :
  valid_record opts line = Some (wki, obj) ->
  on_data opts s line = inr (accept opts s wki obj).
Proof.
  destruct line as [raw | [id|] o]; simpl; try discriminate.
  destruct (_ && _) eqn:Hchecks; [|discriminate].
  intros [= -> ->].
  apply andb_prop in Hchecks as [[Hval Hid]%andb_prop Hdesc].
  unfold on_data, accept, describe.
  assert (Hv : (if skipSchemaValidation opts then ok tt
                else match validate (schema opts) obj with
                     | ValidationFailed message => throw (ValidationError message obj)
                     | ValidationOk => ok tt
                     end) = ok tt).
  { destruct (skipSchemaValidation opts); [reflexivity|].
    destruct (validate (schema opts) obj); [reflexivity | discriminate]. }
  rewrite Hv; clear Hv Hval; simpl.
  destruct wki as [|c wki]; [discriminate|]; simpl.
  destruct (isSelfDescribingRecord obj); simpl in *.
  - destruct (strict_neq_string _ _); [discriminate|]; simpl.
    destruct (dryRun opts); [reflexivity|].
    match goal with |- context [if ?c then _ else _] => destruct c end; reflexivity.
  - destruct (dryRun opts); [reflexivity|].
    match goal with |- context [if ?c then _ else _] => destruct c end; reflexivity.
Qed.

Lemma on_data_inr (s s' : State) (line : JqOutput) :
  on_data opts s line = inr s' ->
  exists wki obj, valid_record opts line = Some (wki, obj) /\ s' = accept opts s wki obj.
Proof.
  intros Hd. destruct (valid_record opts line) as [[wki obj]|] eqn:Hv.
  - exists wki, obj. split; [reflexivity|].
    rewrite (on_data_valid s _ _ _ Hv) in Hd. congruence.
  - destruct (on_data_invalid s _ Hv) as [e He]. congruence.
Qed.

(** Invariants of the shared state are checked handler by handler. *)
Lemma state_invariant (Inv : State -> Prop) :
  Inv initial ->
  (forall s wki obj, stream_ended s = false -> Inv s -> Inv (accept opts s wki obj)) ->
  (forall s err, stream_ended s = false -> Inv s -> Inv (on_error opts s err)) ->
  (forall s, stream_ended s = false -> Inv s -> Inv (on_end opts s)) ->
  (forall s b r, Inv s -> Inv (on_putData_reply opts s b r)) ->
  (forall s b r, Inv s -> Inv (on_publish_reply opts s b r)) ->
  forall trace, Inv (state_of (run opts trace)).
Proof.
  intros Hinit Hdata Herr Hend Hput Hpub.
  apply (run_invariant (fun p => Inv (state_of p))); [exact Hinit|].
  intros [s | e s] ev Hs; simpl in *; [|exact Hs].
  destruct ev as [line | err | | b r | b r]; simpl.
  - destruct (stream_ended s) eqn:Hended; [exact Hs|].
    destruct (on_data opts s line) as [e | s'] eqn:Hd; simpl; [exact Hs|].
    destruct (on_data_inr _ _ _ Hd) as (wki & obj & _ & ->). auto.
  - destruct (stream_ended s) eqn:Hended; simpl; auto.
  - destruct (stream_ended s) eqn:Hended; simpl; auto.
  - auto.
  - auto.
Qed.

(** *** What the promise reactions leave alone *)

Lemma settle_fields (s : State) (b : nat) (outcome : BatchPromise) :
  statementBodies (settle opts s b outcome) = statementBodies s /\
  statements (settle opts s b outcome) = statements s /\
  publishPromises (settle opts s b outcome) = <[b := outcome]> (publishPromises s) /\
  calls (settle opts s b outcome) = calls s.
Proof.
  unfold settle. destruct (join s), outcome; simpl; auto.
  destruct (forallb _ _); simpl; auto.
Qed.

Lemma promise_all_fields (s : State) :
  statementBodies (promise_all opts s) = statementBodies s /\
  statements (promise_all opts s) = statements s /\
  publishPromises (promise_all opts s) = publishPromises s /\
  calls (promise_all opts s) = calls s.
Proof.
  unfold promise_all. destruct (first_rejection _); simpl; auto.
  destruct (forallb _ _); simpl; auto.
Qed.

Lemma calls_bounded_publishBatch (s : State) bodies stmts :
  calls_bounded s -> calls_bounded (publishBatch s bodies stmts).
Proof.
  intros Hs c. unfold publishBatch; simpl. rewrite elem_of_app, length_app; simpl.
  intros [Hc | Hc%list_elem_of_singleton].
  - specialize (Hs c Hc). lia.
  - subst c; simpl. lia.
Qed.

Lemma calls_bounded_run (trace : list Event) :
  calls_bounded (state_of (run opts trace)).
Proof.
  apply state_invariant.
  - intros c Hc. simpl in Hc. apply elem_of_nil in Hc. contradiction.
  - intros s wki obj _ Hs. unfold accept.
    destruct (dryRun opts); [exact Hs|].
    match goal with |- context [if ?c then _ else _] => destruct c end.
    + intros c Hc. apply (calls_bounded_publishBatch _ _ _ Hs c Hc).
    + exact Hs.
  - intros s err _ Hs. exact Hs.
  - intros s _ Hs. unfold on_end, calls_bounded.
    destruct (promise_all_fields
                (if Nat.ltb 0 (length (statementBodies s))
                 then publishBatch s (statementBodies s) (statements s) else s))
      as (_ & _ & -> & ->).
    destruct (Nat.ltb _ _); [apply calls_bounded_publishBatch|]; exact Hs.
  - intros s b r Hs. unfold on_putData_reply.
    destruct (publishPromises s !! b) as [[stmts | | |]|] eqn:Hb; try exact Hs.
    assert (Hlt : b < length (publishPromises s)) by (eapply lookup_lt_Some; eauto).
    destruct r as [bodyHashes | message].
    + destruct (negb _).
      * unfold calls_bounded.
        destruct (settle_fields s b (Rejected (count_mismatch (length stmts) (length bodyHashes))))
          as (_ & _ & -> & ->).
        rewrite length_insert. exact Hs.
      * intros c; simpl. rewrite length_insert, elem_of_app.
        intros [Hc | Hc%list_elem_of_singleton]; [apply Hs, Hc | subst c; exact Hlt].
    + unfold calls_bounded.
      destruct (settle_fields s b (Rejected message)) as (_ & _ & -> & ->).
      rewrite length_insert. exact Hs.
  - intros s b r Hs. unfold on_publish_reply.
    destruct (publishPromises s !! b) as [[| bodyHashes stmts | |]|] eqn:Hb; try exact Hs.
    destruct r as [statementIds | message]; unfold calls_bounded.
    + destruct (settle_fields
                  (print s (printBatchResults bodyHashes statementIds stmts
                              (compoundSize_of (publishOpts opts)))) b Fulfilled)
        as (_ & _ & -> & ->).
      simpl. rewrite length_insert. exact Hs.
    + destruct (settle_fields s b (Rejected message)) as (_ & _ & -> & ->).
      rewrite length_insert. exact Hs.
Qed.

(** *** Fatal errors of the 'data' handler *)

Lemma crash_at (pre post : list Event) (s : State) (line : JqOutput) (e : FatalError) :
  run opts pre = Running s ->
  stream_ended s = false ->
  on_data opts s line = inl e ->
  run opts (pre ++ StreamData line :: post) = Crashed e s.
Proof.
  intros Hpre Hended Hd.
  rewrite run_app, Hpre. simpl. rewrite Hended, Hd. apply crashed_forever.
Qed.

Lemma running_calls_bounded (trace : list Event) (s : State) :
  run opts trace = Running s ->
  forall c, c ∈ calls s -> call_batch c < length (publishPromises s).
Proof.
  intros Hrun. pose proof (calls_bounded_run trace) as Hb.
  rewrite Hrun in Hb. exact Hb.
Qed.

(** A schema link is an object, and no object is strictly equal to a
    string. *)
Lemma schema_link_differs (obj : JsValue) (ref target : string) :
  schema_link obj = Some ref ->
  strict_neq_string (objectPath_get obj "schema" (JStr "/")) target = true.
Proof.
  destruct obj as [| | | | | |fields]; simpl; try discriminate.
  destruct (own_property "schema" fields) as [[| | | | | |link]|]; simpl;
    try discriminate.
  reflexivity.
Qed.

(** C5: a record whose identifier is missing or the empty string ends the
    run with a data-quality error (the identifier error, or the validation
    error when validation, which runs first, rejects the record too).  The
    process stops in the state it had before the record: no request is sent
    from then on, and every request sent before belongs to an earlier batch
    than the one the record would have joined, whose promise would have had
    index [length (publishPromises s)]. *)
Theorem missing_identifier_aborts (pre post : list Event) (s : State)
    (wki : option string) (obj : JsValue) :
  run opts pre = Running s ->
  stream_ended s = false ->
  wki = None \/ wki = Some "" ->
  exists e,
    run opts (pre ++ StreamData (Parsed wki obj) :: post) = Crashed e s /\
    (e = NoIdError obj \/ exists message, e = ValidationError message obj) /\
    (skipSchemaValidation opts = true \/ validate (schema opts) obj = ValidationOk ->
     e = NoIdError obj) /\
    calls (state_of (run opts (pre ++ StreamData (Parsed wki obj) :: post))) = calls s /\
    forall c, c ∈ calls s -> call_batch c < length (publishPromises s).
Proof.
  intros Hpre Hended Hwki.
  assert (Hd : exists e, on_data opts s (Parsed wki obj) = inl e /\
                 (e = NoIdError obj \/ exists message, e = ValidationError message obj) /\
                 (skipSchemaValidation opts = true \/
                  validate (schema opts) obj = ValidationOk -> e = NoIdError obj)).
  { unfold on_data.
    destruct (skipSchemaValidation opts); simpl.
    - exists (NoIdError obj). destruct Hwki as [-> | ->]; simpl; auto.
    - destruct (validate (schema opts) obj) as [|message] eqn:Hval; simpl.
      + exists (NoIdError obj). destruct Hwki as [-> | ->]; simpl; auto.
      + exists (ValidationError message obj). split; [reflexivity|].
        split; [right; eauto|]. intros [? | ?]; discriminate. }
  destruct Hd as (e & Hd & Hkind & Hpass).
  exists e. rewrite (crash_at pre post s _ e Hpre Hended Hd). simpl.
  repeat split; auto. exact (running_calls_bounded pre s Hpre).
Qed.

(** C6: a self-describing record that carries a schema reference [ref]
    other than the one of the run ends the run with a fatal error: the
    mismatch error, unless validation or the identifier check, which run
    first, have thrown already.  The process stops in the state it had
    before the record, so the record enters no batch and no request is sent
    from then on. *)
Theorem foreign_schema_aborts (pre post : list Event) (s : State)
    (wki : option string) (obj : JsValue) (ref : string) :
  run opts pre = Running s ->
  stream_ended s = false ->
  isSelfDescribingRecord obj = true ->
  schema_link obj = Some ref ->
  ref <> schemaReference opts ->
  exists e,
    run opts (pre ++ StreamData (Parsed wki obj) :: post) = Crashed e s /\
    (e = SchemaMismatch (objectPath_get obj "schema" (JStr "/")) (schemaReference opts) \/
     e = NoIdError obj \/ exists message, e = ValidationError message obj) /\
    (forall id, wki = Some id -> id <> "" ->
     skipSchemaValidation opts = true \/ validate (schema opts) obj = ValidationOk ->
     e = SchemaMismatch (objectPath_get obj "schema" (JStr "/")) (schemaReference opts)) /\
    calls (state_of (run opts (pre ++ StreamData (Parsed wki obj) :: post))) = calls s /\
    statementBodies (state_of (run opts (pre ++ StreamData (Parsed wki obj) :: post)))
      = statementBodies s.
Proof.
  intros Hpre Hended Hsd Hlink _.
  pose proof (schema_link_differs obj ref (schemaReference opts) Hlink) as Hneq.
  set (mismatch := SchemaMismatch (objectPath_get obj "schema" (JStr "/"))
                     (schemaReference opts)).
  assert (Hd : exists e, on_data opts s (Parsed wki obj) = inl e /\
                 (e = mismatch \/ e = NoIdError obj \/
                  exists message, e = ValidationError message obj) /\
                 (forall id, wki = Some id -> id <> "" ->
                  skipSchemaValidation opts = true \/
                  validate (schema opts) obj = ValidationOk -> e = mismatch)).
  { unfold on_data. rewrite Hsd, Hneq.
    assert (Hid : exists e,
               (x ← match wki with
                    | None => throw (NoIdError obj)
                    | Some id => if Nat.ltb (String.length id) 1
                                 then throw (NoIdError obj) else ok id
                    end;
                selfDescribingObj ← throw mismatch;
                if dryRun opts then ok (print s [LogRefsTags [x] []])
                else
                  let stmt := {| object := selfDescribingObj; refs := [x]; tags := [] |} in
                  let s0 := push s obj stmt in
                  if (Z.of_nat (length (statementBodies s0)) >=? batchSize opts)%Z
                  then ok (reset (publishBatch s0 (statementBodies s0) (statements s0)))
                  else ok s0) = inl e /\
               (e = mismatch \/ e = NoIdError obj) /\
               (forall id, wki = Some id -> id <> "" -> e = mismatch)).
    { destruct wki as [[|c id]|]; simpl.
      - exists (NoIdError obj). repeat split; auto. intros id [= <-] Hne. congruence.
      - exists mismatch. repeat split; auto.
      - exists (NoIdError obj). repeat split; auto. intros id [=]. }
    destruct Hid as (e & He & Hkind & Hwhen).
    destruct (skipSchemaValidation opts); simpl.
    - exists e. split; [exact He|]. split; [tauto|]. eauto.
    - destruct (validate (schema opts) obj) as [|message] eqn:Hval; simpl.
      + exists e. split; [exact He|]. split; [tauto|]. eauto.
      + exists (ValidationError message obj). split; [reflexivity|].
        split; [eauto|]. intros id _ _ [? | ?]; discriminate. }
  destruct Hd as (e & Hd & Hkind & Hwhen).
  exists e. rewrite (crash_at pre post s _ e Hpre Hended Hd). simpl.
  repeat split; auto.
Qed.

(** *** Tags *)

Lemma no_tags_slice (stmts : list Statement) (start stop : Z) :
  no_tags stmts -> no_tags (slice stmts start stop).
Proof. intros Hs. unfold slice. apply Forall_take, Forall_drop, Hs. Qed.

Lemma no_tags_imap (f : nat -> JsValue) (stmts : list Statement) :
  no_tags stmts ->
  no_tags (imap (fun idx st => {| object := f idx; refs := refs st; tags := tags st |}) stmts).
Proof.
  unfold no_tags. rewrite !Forall_forall. intros Hs st Hst.
  apply elem_of_lookup_imap in Hst as (i & st' & -> & Hi). simpl.
  apply Hs. apply list_elem_of_lookup. eauto.
Qed.

Lemma printBatchResults_no_tags bodyHashes statementIds stmts compoundSize :
  no_tags stmts ->
  Forall line_no_tags (printBatchResults bodyHashes statementIds stmts compoundSize).
Proof.
  intros Hs. apply Forall_forall. intros line Hline.
  apply elem_of_lookup_imap in Hline as (i & id & -> & _). simpl.
  apply no_tags_imap, no_tags_slice, Hs.
Qed.

Lemma tags_empty_settle (s : State) (b : nat) (outcome : BatchPromise) :
  is_settled outcome = true -> tags_empty s -> tags_empty (settle opts s b outcome).
Proof.
  intros Hout (Hst & Hps & Hcs & Hout').
  assert (Hins : Forall promise_no_tags (<[b := outcome]> (publishPromises s))).
  { apply Forall_insert; [exact Hps|]. destruct outcome; simpl; auto; discriminate. }
  unfold settle, tags_empty.
  destruct (join s); simpl; auto.
  destruct outcome; simpl; auto; try discriminate.
  - destruct (forallb _ _); simpl; auto.
    repeat split; auto. apply Forall_app; split; [exact Hout'|].
    destruct (dryRun opts); repeat constructor.
  - repeat split; auto. apply Forall_app; split; [exact Hout'|]. repeat constructor.
Qed.

Lemma tags_empty_promise_all (s : State) :
  tags_empty s -> tags_empty (promise_all opts s).
Proof.
  intros (Hst & Hps & Hcs & Hout). unfold promise_all, tags_empty.
  destruct (first_rejection _); simpl.
  - repeat split; auto. apply Forall_app; split; [exact Hout|]. repeat constructor.
  - destruct (forallb _ _); simpl; auto.
    repeat split; auto. apply Forall_app; split; [exact Hout|].
    destruct (dryRun opts); repeat constructor.
Qed.

Lemma tags_empty_publishBatch (s : State) bodies :
  tags_empty s -> tags_empty (publishBatch s bodies (statements s)).
Proof.
  intros (Hst & Hps & Hcs & Hout). unfold tags_empty; simpl.
  repeat split; auto.
  - apply Forall_app; split; [exact Hps|]. constructor; [exact Hst | constructor].
  - apply Forall_app; split; [exact Hcs|]. repeat constructor.
Qed.

Lemma tags_empty_run (trace : list Event) :
  tags_empty (state_of (run opts trace)).
Proof.
  apply state_invariant.
  - repeat split; constructor.
  - intros s wki obj _ Hs. unfold accept.
    destruct (dryRun opts).
    + destruct Hs as (Hst & Hps & Hcs & Hout). repeat split; auto; simpl.
      apply Forall_app; split; [exact Hout|]. repeat constructor.
    + set (s' := push s obj _).
      assert (Hs' : tags_empty s').
      { destruct Hs as (Hst & Hps & Hcs & Hout). repeat split; auto; simpl.
        apply Forall_app; split; [exact Hst|]. repeat constructor. }
      destruct (_ >=? _)%Z; [|exact Hs'].
      destruct (tags_empty_publishBatch s' (statementBodies s') Hs') as (_ & Hps & Hcs & Hout).
      repeat split; auto. constructor.
  - intros s err _ (Hst & Hps & Hcs & Hout). repeat split; auto; simpl.
    apply Forall_app; split; [exact Hout|]. repeat constructor.
  - intros s _ Hs. unfold on_end. apply tags_empty_promise_all.
    destruct (Nat.ltb _ _); [apply tags_empty_publishBatch|]; exact Hs.
  - intros s b r Hs. unfold on_putData_reply.
    destruct (publishPromises s !! b) as [[stmts | | |]|] eqn:Hb; try exact Hs.
    assert (Hstmts : no_tags stmts).
    { destruct Hs as (_ & Hps & _). rewrite Forall_lookup in Hps. exact (Hps b _ Hb). }
    destruct r as [bodyHashes | message].
    + destruct (negb _); [apply tags_empty_settle; [reflexivity | exact Hs]|].
      destruct Hs as (Hst & Hps & Hcs & Hout). repeat split; auto; simpl.
      * apply Forall_insert; [exact Hps|]. simpl. apply no_tags_imap, Hstmts.
      * apply Forall_app; split; [exact Hcs|]. constructor; [|constructor].
        simpl. apply no_tags_imap, Hstmts.
    + apply tags_empty_settle; [reflexivity | exact Hs].
  - intros s b r Hs. unfold on_publish_reply.
    destruct (publishPromises s !! b) as [[| bodyHashes stmts | |]|] eqn:Hb; try exact Hs.
    assert (Hstmts : no_tags stmts).
    { destruct Hs as (_ & Hps & _). rewrite Forall_lookup in Hps. exact (Hps b _ Hb). }
    destruct r as [statementIds | message].
    + apply tags_empty_settle; [reflexivity|].
      destruct Hs as (Hst & Hps & Hcs & Hout). repeat split; auto; simpl.
      apply Forall_app; split; [exact Hout|].
      apply printBatchResults_no_tags, Hstmts.
    + apply tags_empty_settle; [reflexivity | exact Hs].
Qed.

(** C10: in every run, whatever the records and the answers of the remote
    node, the statements carry no tag: those waiting in the buffer, those
    held by a batch, those sent in a publish request, and those printed in
    a report or a dry-run line. *)
Theorem statements_carry_no_tags (trace : list Event) :
  let s := state_of (run opts trace) in
  (forall b po stmts st, PublishCall b po stmts ∈ calls s -> st ∈ stmts -> tags st = []) /\
  (forall st, st ∈ statements s -> tags st = []) /\
  (forall b stmts st,
     publishPromises s !! b = Some (AwaitPutData stmts) -> st ∈ stmts -> tags st = []) /\
  (forall b hashes stmts st,
     publishPromises s !! b = Some (AwaitPublish hashes stmts) -> st ∈ stmts -> tags st = []) /\
  (forall id bodies st, LogReport id bodies ∈ console s -> st ∈ bodies -> tags st = []) /\
  (forall rs ts, LogRefsTags rs ts ∈ console s -> ts = []).
Proof.
  intros s. destruct (tags_empty_run trace) as (Hst & Hps & Hcs & Hout). fold s in Hst, Hps, Hcs, Hout.
  rewrite Forall_forall in Hcs. rewrite Forall_forall in Hout.
  rewrite Forall_lookup in Hps.
  unfold no_tags in Hst. rewrite Forall_forall in Hst.
  repeat split.
  - intros b po stmts st Hc Hin. specialize (Hcs _ Hc). simpl in Hcs.
    unfold no_tags in Hcs. rewrite Forall_forall in Hcs. auto.
  - exact Hst.
  - intros b stmts st Hb Hin. specialize (Hps _ _ Hb). simpl in Hps.
    unfold no_tags in Hps. rewrite Forall_forall in Hps. auto.
  - intros b hashes stmts st Hb Hin. specialize (Hps _ _ Hb). simpl in Hps.
    unfold no_tags in Hps. rewrite Forall_forall in Hps. auto.
  - intros id bodies st Hl Hin. specialize (Hout _ Hl). simpl in Hout.
    unfold no_tags in Hout. rewrite Forall_forall in Hout. auto.
  - intros rs ts Hl. exact (Hout _ Hl).
Qed.

(** *** How one turn changes the promises and the requests *)

Lemma steps_invariant (Inv : State -> Prop) :
  (forall s ev, Inv s -> Inv (state_of (step opts (Running s) ev))) ->
  forall post p, Inv (state_of p) -> Inv (state_of (fold_left (step opts) post p)).
Proof.
  intros Hstep post. induction post as [|ev post IH]; intros p Hp; [exact Hp|].
  simpl. apply IH. destruct p as [s | e s]; [apply Hstep, Hp | exact Hp].
Qed.

(** The 'data' handler, on a valid record, either leaves promises and
    requests alone or flushes: one new promise, one new store request. *)
Lemma accept_shape (s : State) (wki : string) (obj : JsValue) :
  join (accept opts s wki obj) = join s /\
  ((publishPromises (accept opts s wki obj) = publishPromises s /\
    calls (accept opts s wki obj) = calls s) \/
   (dryRun opts = false /\
    statementBodies (accept opts s wki obj) = [] /\
    publishPromises (accept opts s wki obj) =
      publishPromises s ++ [AwaitPutData (statements s ++
        [{| object := describe opts obj; refs := [wki]; tags := [] |}])] /\
    calls (accept opts s wki obj) =
      calls s ++ [PutDataCall (length (publishPromises s)) (statementBodies s ++ [obj])])).
Proof.
  unfold accept. destruct (dryRun opts); simpl; [auto|].
  destruct (_ >=? _)%Z; simpl; auto.
  split; [reflexivity|]. right. auto.
Qed.

Lemma on_end_shape (s : State) :
  stream_ended (on_end opts s) = true /\
  statementBodies (on_end opts s) = statementBodies s /\
  ((statementBodies s = [] /\
    publishPromises (on_end opts s) = publishPromises s /\
    calls (on_end opts s) = calls s) \/
   (statementBodies s <> [] /\
    publishPromises (on_end opts s) = publishPromises s ++ [AwaitPutData (statements s)] /\
    calls (on_end opts s) =
      calls s ++ [PutDataCall (length (publishPromises s)) (statementBodies s)])).
Proof.
  unfold on_end.
  set (s' := if Nat.ltb 0 (length (statementBodies s))
             then publishBatch s (statementBodies s) (statements s) else s).
  destruct (promise_all_fields s') as (Hb & _ & Hp & Hc). rewrite Hb, Hp, Hc.
  split.
  { unfold promise_all, stream_ended.
    destruct (first_rejection _); [reflexivity|]. destruct (forallb _ _); reflexivity. }
  subst s'. destruct (statementBodies s) as [|x l] eqn:Hbuf; simpl.
  - rewrite Hbuf. auto.
  - rewrite Hbuf. split; [reflexivity|]. right. split; [discriminate|]. auto.
Qed.

(** An answer either finds no callback waiting and changes nothing, or it
    rewrites the promise of its batch; only a good store answer sends a
    request, the publish request of that batch. *)
Lemma on_putData_reply_shape (s : State) (b : nat) (r : Reply) :
  on_putData_reply opts s b r = s \/
  exists stmts p,
    publishPromises s !! b = Some (AwaitPutData stmts) /\
    statementBodies (on_putData_reply opts s b r) = statementBodies s /\
    statements (on_putData_reply opts s b r) = statements s /\
    publishPromises (on_putData_reply opts s b r) = <[b := p]> (publishPromises s) /\
    ((exists message, p = Rejected message /\
        calls (on_putData_reply opts s b r) = calls s /\
        (r = Failed message \/
         exists bodyHashes, r = Resolved bodyHashes /\
           length bodyHashes <> length stmts /\
           message = count_mismatch (length stmts) (length bodyHashes))) \/
     (exists bodyHashes, r = Resolved bodyHashes /\
        length bodyHashes = length stmts /\
        p = AwaitPublish bodyHashes (rewrite_objects bodyHashes stmts) /\
        calls (on_putData_reply opts s b r) =
          calls s ++ [PublishCall b (publishOpts opts) (rewrite_objects bodyHashes stmts)])).
Proof.
  unfold on_putData_reply.
  destruct (publishPromises s !! b) as [[stmts | | |]|] eqn:Hb; auto.
  right. exists stmts.
  destruct r as [bodyHashes | message].
  - destruct (Nat.eqb (length bodyHashes) (length stmts)) eqn:Hlen; simpl.
    + apply Nat.eqb_eq in Hlen. eexists. repeat split; try reflexivity.
      right. exists bodyHashes. auto.
    + apply Nat.eqb_neq in Hlen.
      destruct (settle_fields s b (Rejected (count_mismatch (length stmts) (length bodyHashes))))
        as (-> & -> & -> & ->).
      eexists. repeat split; try reflexivity.
      left. eexists. repeat split; try reflexivity. right. eauto.
  - destruct (settle_fields s b (Rejected message)) as (-> & -> & -> & ->).
    eexists. repeat split; try reflexivity. left. eauto.
Qed.

Lemma on_publish_reply_shape (s : State) (b : nat) (r : Reply) :
  on_publish_reply opts s b r = s \/
  exists bodyHashes stmts p,
    publishPromises s !! b = Some (AwaitPublish bodyHashes stmts) /\
    is_settled p = true /\
    statementBodies (on_publish_reply opts s b r) = statementBodies s /\
    statements (on_publish_reply opts s b r) = statements s /\
    publishPromises (on_publish_reply opts s b r) = <[b := p]> (publishPromises s) /\
    calls (on_publish_reply opts s b r) = calls s.
Proof.
  unfold on_publish_reply.
  destruct (publishPromises s !! b) as [[| bodyHashes stmts | |]|] eqn:Hb; auto.
  right. exists bodyHashes, stmts.
  destruct r as [statementIds | message].
  - destruct (settle_fields
                (print s (printBatchResults bodyHashes statementIds stmts
                            (compoundSize_of (publishOpts opts)))) b Fulfilled)
      as (-> & -> & -> & ->).
    exists Fulfilled. repeat split; reflexivity.
  - destruct (settle_fields s b (Rejected message)) as (-> & -> & -> & ->).
    exists (Rejected message). repeat split; reflexivity.
Qed.

(** *** Batches that wait for the store *)

Lemma awaiting_store_flush (s : State) bodies stmts :
  calls_bounded s -> awaiting_store s -> length bodies = length stmts ->
  forall b stmts',
    (publishPromises s ++ [AwaitPutData stmts]) !! b = Some (AwaitPutData stmts') ->
    (forall po sts,
       PublishCall b po sts ∉ calls s ++ [PutDataCall (length (publishPromises s)) bodies]) /\
    exists bodies',
      PutDataCall b bodies' ∈ calls s ++ [PutDataCall (length (publishPromises s)) bodies] /\
      length bodies' = length stmts'.
Proof.
  intros Hbound Hwait Hlen b stmts' Hb.
  rewrite lookup_app in Hb.
  destruct (publishPromises s !! b) as [p|] eqn:Hlook.
  - injection Hb as ->. destruct (Hwait b stmts' Hlook) as (Hno & bodies' & Hin & Hl).
    split.
    + intros po sts [Hc | Hc%list_elem_of_singleton]%elem_of_app; [|discriminate].
      exact (Hno po sts Hc).
    + exists bodies'. split; [|exact Hl]. apply elem_of_app. auto.
  - apply lookup_ge_None in Hlook.
    destruct (b - length (publishPromises s)) as [|n] eqn:Hd; simpl in Hb; [|discriminate].
    injection Hb as <-. assert (b = length (publishPromises s)) as -> by lia.
    split.
    + intros po sts [Hc | Hc%list_elem_of_singleton]%elem_of_app; [|discriminate].
      specialize (Hbound _ Hc). simpl in Hbound. lia.
    + exists bodies. split; [|exact Hlen]. apply elem_of_app. right. constructor.
Qed.

Lemma awaiting_store_settled (s : State) (b : nat) (p : BatchPromise) (extra : list Call) :
  awaiting_store s ->
  (forall stmts, p <> AwaitPutData stmts) ->
  (forall c, c ∈ extra -> call_batch c = b) ->
  forall b' stmts,
    <[b := p]> (publishPromises s) !! b' = Some (AwaitPutData stmts) ->
    (forall po sts, PublishCall b' po sts ∉ calls s ++ extra) /\
    exists bodies, PutDataCall b' bodies ∈ calls s ++ extra /\ length bodies = length stmts.
Proof.
  intros Hwait Hp Hextra b' stmts Hb'.
  apply list_lookup_insert_Some in Hb' as [(_ & -> & _) | (Hne & Hb')].
  { exfalso. exact (Hp stmts eq_refl). }
  destruct (Hwait b' stmts Hb') as (Hno & bodies & Hin & Hl).
  split.
  - intros po sts [Hc | Hc]%elem_of_app; [exact (Hno po sts Hc)|].
    apply Hextra in Hc. simpl in Hc. congruence.
  - exists bodies. split; [|exact Hl]. apply elem_of_app. auto.
Qed.

Lemma batch_inv_run (trace : list Event) : batch_inv (state_of (run opts trace)).
Proof.
  apply state_invariant.
  - split; [reflexivity|]. split.
    + intros c Hc. apply elem_of_nil in Hc. contradiction.
    + intros b stmts Hb. discriminate.
  - intros s wki obj _ (Hal & Hbound & Hwait).
    unfold accept. destruct (dryRun opts); [exact (conj Hal (conj Hbound Hwait))|].
    set (stmt := {| object := describe opts obj; refs := [wki]; tags := [] |}).
    assert (Hal' : length (statementBodies s ++ [obj]) = length (statements s ++ [stmt])).
    { rewrite !length_app. simpl. unfold aligned in Hal. lia. }
    destruct (_ >=? _)%Z; [|exact (conj Hal' (conj Hbound Hwait))].
    split; [reflexivity|]. split.
    + exact (calls_bounded_publishBatch (push s obj stmt) _ _ Hbound).
    + exact (awaiting_store_flush s _ _ Hbound Hwait Hal').
  - intros s err _ Hs. exact Hs.
  - intros s _ (Hal & Hbound & Hwait).
    unfold batch_inv, aligned, calls_bounded, awaiting_store, on_end.
    set (s' := if Nat.ltb 0 (length (statementBodies s))
               then publishBatch s (statementBodies s) (statements s) else s).
    destruct (promise_all_fields s') as (-> & -> & -> & ->).
    subst s'. destruct (Nat.ltb _ _).
    + split; [exact Hal|]. split.
      * exact (calls_bounded_publishBatch s _ _ Hbound).
      * exact (awaiting_store_flush s _ _ Hbound Hwait Hal).
    + exact (conj Hal (conj Hbound Hwait)).
  - intros s b r (Hal & Hbound & Hwait).
    destruct (on_putData_reply_shape s b r) as [-> | (stmts & p & Hb & Hbuf & Hst & Hps & Hc)].
    { exact (conj Hal (conj Hbound Hwait)). }
    assert (Hlt : b < length (publishPromises s)) by (eapply lookup_lt_Some; eauto).
    unfold batch_inv, aligned, calls_bounded, awaiting_store.
    rewrite Hbuf, Hst, Hps, length_insert.
    destruct Hc as [(message & -> & -> & _) | (bodyHashes & -> & _ & -> & ->)].
    + split; [exact Hal|]. split; [exact Hbound|].
      intros b' stmts' Hb'.
      destruct (awaiting_store_settled s b (Rejected message) [] Hwait) with (b' := b') (stmts := stmts')
        as (Hno & Hex); try assumption.
      * intros ? [=].
      * intros c Hc. apply elem_of_nil in Hc. contradiction.
      * rewrite app_nil_r in Hno, Hex. auto.
    + split; [exact Hal|]. split.
      * intros c [Hc | Hc%list_elem_of_singleton]%elem_of_app; [exact (Hbound c Hc)|].
        subst c. exact Hlt.
      * apply awaiting_store_settled; [exact Hwait | intros ? [=] |].
        intros c Hc%list_elem_of_singleton. subst c. reflexivity.
  - intros s b r (Hal & Hbound & Hwait).
    destruct (on_publish_reply_shape s b r)
      as [-> | (bodyHashes & stmts & p & Hb & Hp & Hbuf & Hst & Hps & Hc)].
    { exact (conj Hal (conj Hbound Hwait)). }
    unfold batch_inv, aligned, calls_bounded, awaiting_store.
    rewrite Hbuf, Hst, Hps, Hc, length_insert.
    split; [exact Hal|]. split; [exact Hbound|].
    intros b' stmts' Hb'.
    destruct (awaiting_store_settled s b p [] Hwait) with (b' := b') (stmts := stmts')
      as (Hno & Hex); try assumption.
    + intros ? ->. discriminate.
    + intros c Hc0. apply elem_of_nil in Hc0. contradiction.
    + rewrite app_nil_r in Hno, Hex. auto.
Qed.

(** Once a batch is rejected with nothing published for it, it stays so. *)
Lemma rejected_unpublished_step (b : nat) (message : string) (s : State) (ev : Event) :
  rejected_unpublished b message s ->
  rejected_unpublished b message (state_of (step opts (Running s) ev)).
Proof.
  intros (Hb & Hno).
  assert (Hlt : b < length (publishPromises s)) by (eapply lookup_lt_Some; eauto).
  destruct ev as [line | err | | b' r | b' r]; simpl.
  - destruct (stream_ended s); [split; assumption|].
    destruct (on_data opts s line) as [e | s'] eqn:Hd; simpl; [split; assumption|].
    destruct (on_data_inr _ _ _ Hd) as (wki & obj & _ & ->).
    destruct (accept_shape s wki obj) as (_ & [(Hp & Hc) | (_ & _ & Hp & Hc)]);
      unfold rejected_unpublished; rewrite Hp, Hc.
    + split; assumption.
    + rewrite lookup_app_l by exact Hlt. split; [exact Hb|].
      intros po sts [Hin | Hin%list_elem_of_singleton]%elem_of_app; [|discriminate].
      exact (Hno po sts Hin).
  - destruct (stream_ended s); split; assumption.
  - destruct (stream_ended s); [split; assumption|]. simpl.
    destruct (on_end_shape s) as (_ & _ & [(_ & Hp & Hc) | (_ & Hp & Hc)]);
      unfold rejected_unpublished; rewrite Hp, Hc.
    + split; assumption.
    + rewrite lookup_app_l by exact Hlt. split; [exact Hb|].
      intros po sts [Hin | Hin%list_elem_of_singleton]%elem_of_app; [|discriminate].
      exact (Hno po sts Hin).
  - destruct (on_putData_reply_shape s b' r) as [-> | (stmts & p & Hb' & _ & _ & Hps & Hc)].
    { split; assumption. }
    assert (b' <> b) by (intros ->; congruence).
    unfold rejected_unpublished. rewrite Hps, list_lookup_insert_ne by assumption.
    split; [exact Hb|].
    destruct Hc as [(m & _ & -> & _) | (bodyHashes & _ & _ & _ & ->)]; [exact Hno|].
    intros po sts [Hin | Hin%list_elem_of_singleton]%elem_of_app; [exact (Hno po sts Hin)|].
    congruence.
  - destruct (on_publish_reply_shape s b' r)
      as [-> | (bodyHashes & stmts & p & Hb' & _ & _ & _ & Hps & Hc)].
    { split; assumption. }
    assert (b' <> b) by (intros ->; congruence).
    unfold rejected_unpublished. rewrite Hps, Hc, list_lookup_insert_ne by assumption.
    split; assumption.
Qed.

(** C4: when the store answers a batch of N payloads with M addresses and
    M differs from N, the promise of the batch is rejected with the message
    "Expected N results from putting data blobs, received M", where N is
    the number of payloads of the store request of that batch, and no
    publish request for the batch is sent, then or later. *)
Theorem count_mismatch_is_batch_error (pre post : list Event) (s : State) (b : nat)
    (stmts : list Statement) (bodyHashes : list string) :
  run opts pre = Running s ->
  publishPromises s !! b = Some (AwaitPutData stmts) ->
  length bodyHashes <> length stmts ->
  let final := state_of (run opts (pre ++ PutDataReply b (Resolved bodyHashes) :: post)) in
  (exists bodies, PutDataCall b bodies ∈ calls final /\ length bodies = length stmts) /\
  publishPromises final !! b =
    Some (Rejected ("Expected " ++ show_nat (length stmts) ++
                    " results from putting data blobs, received " ++
                    show_nat (length bodyHashes))%string) /\
  forall po sts, PublishCall b po sts ∉ calls final.
Proof.
  intros Hpre Hb Hlen final.
  destruct (batch_inv_run pre) as (_ & _ & Hwait). rewrite Hpre in Hwait. simpl in Hwait.
  destruct (Hwait b stmts Hb) as (Hno & bodies & Hin & Hbodies).
  assert (Hlt : b < length (publishPromises s)) by (eapply lookup_lt_Some; eauto).
  set (s1 := on_putData_reply opts s b (Resolved bodyHashes)).
  assert (Hs1 : rejected_unpublished b (count_mismatch (length stmts) (length bodyHashes)) s1
                /\ calls s1 = calls s).
  { subst s1. unfold on_putData_reply. rewrite Hb.
    apply Nat.eqb_neq in Hlen. rewrite Hlen. simpl.
    destruct (settle_fields s b (Rejected (count_mismatch (length stmts) (length bodyHashes))))
      as (_ & _ & Hp & Hc).
    unfold rejected_unpublished. rewrite Hp, Hc.
    rewrite list_lookup_insert_eq by exact Hlt. auto. }
  destruct Hs1 as (Hs1 & Hcalls).
  assert (Hfinal : final = state_of (fold_left (step opts) post (Running s1))).
  { subst final. rewrite run_app, Hpre. reflexivity. }
  assert (Hrej : rejected_unpublished b (count_mismatch (length stmts) (length bodyHashes)) final).
  { rewrite Hfinal.
    apply (steps_invariant (rejected_unpublished b _)); [|exact Hs1].
    intros s' ev. apply rejected_unpublished_step. }
  destruct Hrej as (Hrej & Hnone).
  split; [|split; [exact Hrej | exact Hnone]].
  exists bodies. split; [|exact Hbodies].
  rewrite Hfinal.
  apply (steps_invariant (fun s' => PutDataCall b bodies ∈ calls s')).
  - intros s' ev Hs'. clear - Hs'.
    destruct ev as [line | err | | b' r | b' r]; simpl.
    + destruct (stream_ended s'); [exact Hs'|].
      destruct (on_data opts s' line) as [e | s''] eqn:Hd; simpl; [exact Hs'|].
      destruct (on_data_inr _ _ _ Hd) as (wki & obj & _ & ->).
      destruct (accept_shape s' wki obj) as (_ & [(_ & ->) | (_ & _ & _ & ->)]);
        [exact Hs' | apply elem_of_app; auto].
    + destruct (stream_ended s'); exact Hs'.
    + destruct (stream_ended s'); [exact Hs'|]. simpl.
      destruct (on_end_shape s') as (_ & _ & [(_ & _ & ->) | (_ & _ & ->)]);
        [exact Hs' | apply elem_of_app; auto].
    + destruct (on_putData_reply_shape s' b' r) as [-> | (? & ? & _ & _ & _ & _ & Hc)];
        [exact Hs'|].
      destruct Hc as [(m & _ & -> & _) | (? & _ & _ & _ & ->)];
        [exact Hs' | apply elem_of_app; auto].
    + destruct (on_publish_reply_shape s' b' r)
        as [-> | (? & ? & ? & _ & _ & _ & _ & _ & ->)]; exact Hs'.
  - simpl. rewrite Hcalls. exact Hin.
Qed.

(** *** Promise.all and the console *)

Lemma first_rejection_None (ps : list BatchPromise) :
  first_rejection ps = None <-> Forall (fun p => is_rejected p = false) ps.
Proof.
  induction ps as [|p ps IH]; simpl.
  - split; [constructor | reflexivity].
  - destruct p; simpl; rewrite ?Forall_cons, ?IH; try tauto.
    split; [discriminate | intros [? _]; discriminate].
Qed.

Lemma first_rejection_Some (ps : list BatchPromise) (message : string) :
  first_rejection ps = Some message -> exists b, ps !! b = Some (Rejected message).
Proof.
  induction ps as [|p ps IH]; simpl; [discriminate|].
  destruct p; try (intros Hr; destruct (IH Hr) as [b Hb]; exists (S b); exact Hb).
  intros [= ->]. exists 0. reflexivity.
Qed.

Lemma all_fulfilled_Forall (ps : list BatchPromise) :
  forallb is_fulfilled ps = true <-> Forall (fun p => p = Fulfilled) ps.
Proof.
  induction ps as [|p ps IH]; simpl.
  - split; [constructor | reflexivity].
  - rewrite Forall_cons, <- IH, andb_true_iff.
    destruct p; simpl; split; intros [? ?]; try discriminate; auto.
Qed.

Lemma publish_errors_app (out lines : list Console) :
  publish_errors (out ++ lines) = publish_errors out ++ publish_errors lines.
Proof. apply omap_app. Qed.

Lemma successes_app (out lines : list Console) :
  successes (out ++ lines) = successes out + successes lines.
Proof. unfold successes. rewrite omap_app, length_app. reflexivity. Qed.

Lemma report_lines_quiet bodyHashes statementIds stmts compoundSize :
  publish_errors (printBatchResults bodyHashes statementIds stmts compoundSize) = [] /\
  successes (printBatchResults bodyHashes statementIds stmts compoundSize) = 0.
Proof.
  assert (Hrep : Forall (fun line => exists id bodies, line = LogReport id bodies)
                   (printBatchResults bodyHashes statementIds stmts compoundSize)).
  { apply Forall_forall. intros line (i & id & -> & _)%elem_of_lookup_imap.
    unfold printGroup. eauto. }
  induction Hrep as [|line lines (id & bodies & ->) _ IH]; [split; reflexivity|].
  exact IH.
Qed.

(** Lines that are neither the error nor the success message do not touch
    the invariant. *)
Lemma join_inv_print (s : State) (lines : list Console) :
  publish_errors lines = [] -> successes lines = 0 ->
  join_inv opts s -> join_inv opts (print s lines).
Proof.
  intros He Hs. unfold join_inv. simpl.
  rewrite publish_errors_app, successes_app, He, Hs, app_nil_r, Nat.add_0_r. auto.
Qed.

Lemma join_inv_settle (s : State) (b : nat) (p0 outcome : BatchPromise) :
  publishPromises s !! b = Some p0 -> is_settled p0 = false ->
  is_settled outcome = true ->
  join_inv opts s -> join_inv opts (settle opts s b outcome).
Proof.
  intros Hb Hp0 Hout Hinv.
  assert (Hlt : b < length (publishPromises s)) by (eapply lookup_lt_Some; eauto).
  unfold join_inv, settle in *.
  destruct (join s) eqn:Hj; simpl.
  - rewrite Hj. exact Hinv.
  - destruct Hinv as (He & Hs & Hnr & Hnf).
    destruct outcome as [| | |message]; try discriminate; simpl.
    + destruct (forallb _ _) eqn:Hall; simpl.
      * right. rewrite publish_errors_app, successes_app, He, Hs.
        apply all_fulfilled_Forall in Hall. split; [|split; [exact Hall|]];
          destruct (dryRun opts); reflexivity.
      * rewrite Hj. repeat split; auto.
        -- apply Forall_insert; [exact Hnr | reflexivity].
        -- intros Hall'%all_fulfilled_Forall. congruence.
    + left. exists message, b. rewrite publish_errors_app, successes_app, He, Hs.
      repeat split. apply list_lookup_insert_eq, Hlt.
  - rewrite Hj. destruct Hinv as [(message & b0 & He & Hs & Hb0) | (He & Hall & Hs)].
    + left. exists message, b0. repeat split; auto.
      rewrite list_lookup_insert_ne; [exact Hb0|].
      intros ->. rewrite Hb in Hb0. injection Hb0 as ->. discriminate.
    + exfalso. rewrite Forall_lookup in Hall. rewrite (Hall _ _ Hb) in Hp0. discriminate.
Qed.

Lemma join_inv_run (trace : list Event) : join_inv opts (state_of (run opts trace)).
Proof.
  apply state_invariant.
  - split; reflexivity.
  - intros s wki obj Hended Hs.
    unfold stream_ended in Hended.
    destruct (join s) eqn:Hj; try discriminate.
    unfold accept. destruct (dryRun opts) eqn:Hdry.
    + apply join_inv_print; [reflexivity | reflexivity | exact Hs].
    + unfold join_inv in *. rewrite Hj in Hs.
      destruct (_ >=? _)%Z; simpl; rewrite Hj; exact Hs.
  - intros s err _ Hs. apply join_inv_print; [reflexivity | reflexivity | exact Hs].
  - intros s Hended Hs.
    unfold stream_ended in Hended.
    destruct (join s) eqn:Hj; try discriminate.
    unfold join_inv in Hs. rewrite Hj in Hs. destruct Hs as (He & Hs).
    unfold on_end.
    set (s' := if Nat.ltb 0 (length (statementBodies s))
               then publishBatch s (statementBodies s) (statements s) else s).
    assert (Hc : console s' = console s) by (subst s'; destruct (Nat.ltb _ _); reflexivity).
    unfold promise_all, join_inv.
    destruct (first_rejection (publishPromises s')) as [message|] eqn:Hfirst; simpl.
    + left. apply first_rejection_Some in Hfirst as [b Hb].
      exists message, b. rewrite publish_errors_app, successes_app, Hc, He, Hs. auto.
    + destruct (forallb _ _) eqn:Hall; simpl.
      * right. rewrite publish_errors_app, successes_app, Hc, He, Hs.
        apply all_fulfilled_Forall in Hall. split; [|split; [exact Hall|]];
          destruct (dryRun opts); reflexivity.
      * rewrite Hc. repeat split; auto.
        -- apply first_rejection_None, Hfirst.
        -- intros Hf%all_fulfilled_Forall. congruence.
  - intros s b r Hs. unfold on_putData_reply.
    destruct (publishPromises s !! b) as [[stmts | | |]|] eqn:Hb; try exact Hs.
    assert (Hlt : b < length (publishPromises s)) by (eapply lookup_lt_Some; eauto).
    destruct r as [bodyHashes | message];
      [destruct (negb _)|]; try (eapply join_inv_settle; eauto; reflexivity).
    unfold join_inv in *. simpl.
    destruct (join s).
    + exact Hs.
    + destruct Hs as (He & Hs & Hnr & Hnf). repeat split; auto.
      * apply Forall_insert; [exact Hnr | reflexivity].
      * intros Hall. rewrite Forall_lookup in Hall.
        specialize (Hall b _ (list_lookup_insert_eq _ _ _ Hlt)). discriminate.
    + destruct Hs as [(message & b0 & He & Hs & Hb0) | (He & Hall & Hs)].
      * left. exists message, b0. repeat split; auto.
        rewrite list_lookup_insert_ne; [exact Hb0|]. intros ->. congruence.
      * exfalso. rewrite Forall_lookup in Hall. specialize (Hall _ _ Hb). discriminate.
  - intros s b r Hs. unfold on_publish_reply.
    destruct (publishPromises s !! b) as [[| bodyHashes stmts | |]|] eqn:Hb; try exact Hs.
    destruct r as [statementIds | message].
    + eapply join_inv_settle; [exact Hb | reflexivity | reflexivity |].
      destruct (report_lines_quiet bodyHashes statementIds stmts
                  (compoundSize_of (publishOpts opts))) as (He & Hsucc).
      apply join_inv_print; assumption.
    + eapply join_inv_settle; eauto; reflexivity.
Qed.

(** Once the stream has ended and every batch is fulfilled, no event
    changes the state. *)
Lemma quiescent (s : State) (ev : Event) :
  stream_ended s = true ->
  Forall (fun p => p = Fulfilled) (publishPromises s) ->
  step opts (Running s) ev = Running s.
Proof.
  intros Hended Hall. rewrite Forall_lookup in Hall.
  destruct ev as [line | err | | b r | b r]; simpl; rewrite ?Hended; try reflexivity.
  - unfold on_putData_reply.
    destruct (publishPromises s !! b) as [p|] eqn:Hb; [|reflexivity].
    rewrite (Hall _ _ Hb). reflexivity.
  - unfold on_publish_reply.
    destruct (publishPromises s !! b) as [p|] eqn:Hb; [|reflexivity].
    rewrite (Hall _ _ Hb). reflexivity.
Qed.

Lemma quiescent_forever (post : list Event) (p : Process) :
  stream_ended (state_of p) = true ->
  Forall (fun q => q = Fulfilled) (publishPromises (state_of p)) ->
  state_of (fold_left (step opts) post p) = state_of p.
Proof.
  intros Hended Hall. destruct p as [s | e s]; [|rewrite crashed_forever; reflexivity].
  simpl in Hended, Hall.
  induction post as [|ev post IH]; [reflexivity|].
  cbn [fold_left]. rewrite quiescent by assumption. exact IH.
Qed.

Lemma LogAllPublished_successes (out : list Console) :
  LogAllPublished ∈ out -> 0 < successes out.
Proof.
  intros (l1 & l2 & ->)%list_elem_of_split.
  rewrite successes_app. unfold successes at 2. simpl. lia.
Qed.

(** C8: the success message is on the console only in a run that is not a
    dry run, after the stream has ended, and when every promise of
    [publishPromises] is fulfilled.  From that moment no event changes the
    state: the promises found fulfilled are those of every batch the run
    ever flushes, each request of the whole run belongs to one of them, and
    the message is printed once. *)
Theorem success_after_every_batch_fulfilled (pre post : list Event) :
  LogAllPublished ∈ console (state_of (run opts pre)) ->
  dryRun opts = false /\
  stream_ended (state_of (run opts pre)) = true /\
  Forall (fun p => p = Fulfilled) (publishPromises (state_of (run opts pre))) /\
  state_of (run opts (pre ++ post)) = state_of (run opts pre) /\
  (forall c, c ∈ calls (state_of (run opts (pre ++ post))) ->
     publishPromises (state_of (run opts pre)) !! call_batch c = Some Fulfilled) /\
  successes (console (state_of (run opts (pre ++ post)))) = 1.
Proof.
  intros Hin%LogAllPublished_successes.
  pose proof (join_inv_run pre) as Hinv. unfold join_inv in Hinv.
  set (s := state_of (run opts pre)) in *.
  assert (Hsettled : dryRun opts = false /\ stream_ended s = true /\
                     Forall (fun p => p = Fulfilled) (publishPromises s) /\
                     successes (console s) = 1).
  { unfold stream_ended. destruct (join s).
    - destruct Hinv as (_ & Hs). lia.
    - destruct Hinv as (_ & Hs & _). lia.
    - destruct Hinv as [(m & b & _ & Hs & _) | (_ & Hall & Hs)]; [lia|].
      destruct (dryRun opts); [lia | auto]. }
  destruct Hsettled as (Hdry & Hended & Hall & Hone).
  assert (Hsame : state_of (run opts (pre ++ post)) = s).
  { rewrite run_app. apply quiescent_forever; assumption. }
  rewrite Hsame. repeat split; auto.
  intros c Hc. pose proof (calls_bounded_run pre c Hc) as Hlt.
  apply lookup_lt_is_Some in Hlt as [p Hp]. fold s in Hp. rewrite Hp. f_equal.
  rewrite Forall_lookup in Hall. exact (Hall _ _ Hp).
Qed.

(** *** The records of a run, from the first event on *)

Lemma settle_stream_ended (s : State) (b : nat) (outcome : BatchPromise) :
  stream_ended (settle opts s b outcome) = stream_ended s.
Proof.
  unfold settle, stream_ended.
  destruct (join s) eqn:Hj, outcome; simpl; rewrite ?Hj; try reflexivity.
  destruct (forallb _ _); simpl; rewrite ?Hj; reflexivity.
Qed.

Lemma on_putData_reply_stream_ended (s : State) (b : nat) (r : Reply) :
  stream_ended (on_putData_reply opts s b r) = stream_ended s.
Proof.
  unfold on_putData_reply.
  destruct (publishPromises s !! b) as [[stmts | | |]|]; try reflexivity.
  destruct r as [bodyHashes | message]; [destruct (negb _)|];
    try apply settle_stream_ended; reflexivity.
Qed.

Lemma on_publish_reply_stream_ended (s : State) (b : nat) (r : Reply) :
  stream_ended (on_publish_reply opts s b r) = stream_ended s.
Proof.
  unfold on_publish_reply.
  destruct (publishPromises s !! b) as [[| bodyHashes stmts | |]|]; try reflexivity.
  destruct r as [statementIds | message]; rewrite settle_stream_ended; reflexivity.
Qed.

Lemma accept_stream_ended (s : State) (wki : string) (obj : JsValue) :
  stream_ended (accept opts s wki obj) = stream_ended s.
Proof.
  unfold stream_ended. destruct (accept_shape s wki obj) as (-> & _). reflexivity.
Qed.


(** *** Dry runs *)








(** *** Batches *)








(** *** Isolation of a batch *)

Lemma ingest_calls_app (b : nat) (cs extra : list Call) :
  ingest_calls b (cs ++ extra) = ingest_calls b cs ++ ingest_calls b extra.
Proof. apply filter_app. Qed.

Lemma ingest_calls_own_publish (b : nat) (po : PublishOpts) (sts : list Statement) :
  ingest_calls b [PublishCall b po sts] = [].
Proof.
  unfold ingest_calls. rewrite filter_cons_False; [reflexivity|].
  simpl. rewrite Nat.eqb_refl. discriminate.
Qed.

(** What the 'data' handler throws does not depend on the state. *)
Lemma on_data_throws (s s' : State) (line : JqOutput) (e : FatalError) :
  on_data opts s line = inl e -> on_data opts s' line = inl e.
Proof.
  destruct (valid_record opts line) as [[wki obj]|] eqn:Hv.
  { rewrite (on_data_valid s _ _ _ Hv). discriminate. }
  clear Hv. destruct line as [raw | wki obj]; [exact id|].
  unfold on_data.
  destruct (if skipSchemaValidation opts then ok tt else _) as [e0 | []]; [exact id|].
  simpl.
  destruct (match wki with None => _ | Some _ => _ end) as [e0 | x]; [exact id|].
  simpl.
  destruct (if isSelfDescribingRecord obj then _ else _) as [e0 | desc]; [exact id|].
  simpl. destruct (dryRun opts); [discriminate|].
  destruct (_ >=? _)%Z; discriminate.
Qed.

Lemma agree_except_lookup_app (b : nat) (ps ps' : list BatchPromise) (p : BatchPromise) :
  length ps = length ps' ->
  (forall b', b' <> b -> ps !! b' = ps' !! b') ->
  forall b', b' <> b -> (ps ++ [p]) !! b' = (ps' ++ [p]) !! b'.
Proof.
  intros Hlen Hsame b' Hne. rewrite !lookup_app, <- Hlen, (Hsame b' Hne). reflexivity.
Qed.

Lemma agree_except_flush (b : nat) (s s' : State) bodies stmts :
  agree_except b s s' ->
  agree_except b (publishBatch s bodies stmts) (publishBatch s' bodies stmts).
Proof.
  intros (Hended & Hb & Hst & Hlen & Hsame & Hcalls).
  unfold agree_except, stream_ended in *; simpl.
  repeat split; auto.
  - rewrite !length_app. simpl. lia.
  - apply agree_except_lookup_app; assumption.
  - rewrite !ingest_calls_app, Hcalls, Hlen. reflexivity.
Qed.

Lemma agree_except_accept (b : nat) (s s' : State) (wki : string) (obj : JsValue) :
  agree_except b s s' -> agree_except b (accept opts s wki obj) (accept opts s' wki obj).
Proof.
  intros Hagree. pose proof Hagree as (Hended & Hb & Hst & Hlen & Hsame & Hcalls).
  unfold accept. destruct (dryRun opts); [exact Hagree|].
  set (stmt := {| object := describe opts obj; refs := [wki]; tags := [] |}).
  assert (Hpush : agree_except b (push s obj stmt) (push s' obj stmt)).
  { unfold agree_except, stream_ended in *; simpl. rewrite Hb, Hst. repeat split; auto. }
  simpl. rewrite Hb, Hst.
  destruct (_ >=? _)%Z; [|exact Hpush].
  pose proof (agree_except_flush b _ _ (statementBodies s' ++ [obj])
                (statements s' ++ [stmt]) Hpush) as (H1 & _ & _ & H4 & H5 & H6).
  unfold agree_except. repeat split; auto.
Qed.

Lemma agree_except_on_end (b : nat) (s s' : State) :
  agree_except b s s' -> agree_except b (on_end opts s) (on_end opts s').
Proof.
  intros Hagree. pose proof Hagree as (Hended & Hb & Hst & Hlen & Hsame & Hcalls).
  unfold agree_except.
  destruct (on_end_shape s) as (-> & _ & _), (on_end_shape s') as (-> & _ & _).
  unfold on_end. rewrite Hb, Hst.
  set (t := if Nat.ltb 0 (length (statementBodies s'))
            then publishBatch s (statementBodies s') (statements s') else s).
  set (t' := if Nat.ltb 0 (length (statementBodies s'))
             then publishBatch s' (statementBodies s') (statements s') else s').
  assert (Ht : agree_except b t t').
  { subst t t'. destruct (Nat.ltb _ _); [apply agree_except_flush|]; exact Hagree. }
  destruct (promise_all_fields t) as (-> & -> & -> & ->).
  destruct (promise_all_fields t') as (-> & -> & -> & ->).
  destruct Ht as (_ & ? & ? & ? & ? & ?). repeat split; auto.
Qed.

(** Rewriting the promise of batch [b'] on both sides, with the same
    request of that batch added or none. *)
Lemma agree_except_update (b b' : nat) (s s' t t' : State) (p : BatchPromise)
    (extra : list Call) :
  agree_except b s s' ->
  stream_ended t = stream_ended s -> stream_ended t' = stream_ended s' ->
  statementBodies t = statementBodies s -> statementBodies t' = statementBodies s' ->
  statements t = statements s -> statements t' = statements s' ->
  publishPromises t = <[b' := p]> (publishPromises s) ->
  publishPromises t' = <[b' := p]> (publishPromises s') ->
  calls t = calls s ++ extra -> calls t' = calls s' ++ extra ->
  b' <> b ->
  agree_except b t t'.
Proof.
  intros (Hended & Hb & Hst & Hlen & Hsame & Hcalls) He He' Hbt Hbt' Hstt Hstt' Hp Hp' Hc Hc' Hne.
  unfold agree_except.
  rewrite He, He', Hbt, Hbt', Hstt, Hstt', Hp, Hp', Hc, Hc', !length_insert.
  repeat split; auto.
  - intros b0 Hb0. destruct (decide (b' = b0)) as [<- | Hne0].
    + rewrite !list_lookup_insert.
      assert (Hiff : b' < length (publishPromises s) <-> b' < length (publishPromises s'))
        by (rewrite Hlen; tauto).
      repeat case_decide; try tauto. apply Hsame, Hne.
    + rewrite !list_lookup_insert_ne by exact Hne0. apply Hsame, Hb0.
  - rewrite !ingest_calls_app, Hcalls. reflexivity.
Qed.

(** An answer to batch [b] changes nothing that [agree_except b] compares. *)
Lemma agree_except_own_answer (b : nat) (s s' : State) (ev : Event) :
  answers b ev = true ->
  agree_except b s s' ->
  agree_except b (state_of (step opts (Running s) ev)) s'.
Proof.
  intros Hev (Hended & Hb & Hst & Hlen & Hsame & Hcalls).
  destruct ev as [line | err | | b' r | b' r]; simpl in Hev; try discriminate;
    apply Nat.eqb_eq in Hev; subst b'; simpl; unfold agree_except.
  - rewrite on_putData_reply_stream_ended.
    destruct (on_putData_reply_shape s b r) as [-> | (stmts & p & _ & -> & -> & -> & Hc)].
    { repeat split; auto. }
    rewrite length_insert. repeat split; auto.
    + intros b' Hne. rewrite list_lookup_insert_ne by congruence. apply Hsame, Hne.
    + destruct Hc as [(m & _ & -> & _) | (bodyHashes & _ & _ & _ & ->)]; [exact Hcalls|].
      rewrite ingest_calls_app, Hcalls, ingest_calls_own_publish. apply app_nil_r.
  - rewrite on_publish_reply_stream_ended.
    destruct (on_publish_reply_shape s b r)
      as [-> | (bodyHashes & stmts & p & _ & _ & -> & -> & -> & ->)].
    { repeat split; auto. }
    rewrite length_insert. repeat split; auto.
    intros b' Hne. rewrite list_lookup_insert_ne by congruence. apply Hsame, Hne.
Qed.

Lemma agree_except_settle (b b' : nat) (s s' : State) (outcome : BatchPromise) :
  b' <> b -> agree_except b s s' ->
  agree_except b (settle opts s b' outcome) (settle opts s' b' outcome).
Proof.
  intros Hne Hagree.
  destruct (settle_fields s b' outcome) as (? & ? & ? & ?).
  destruct (settle_fields s' b' outcome) as (? & ? & ? & ?).
  apply (agree_except_update b b' s s' _ _ outcome []); auto using settle_stream_ended;
    rewrite app_nil_r; assumption.
Qed.

(** Every other event does the same on both sides. *)
Lemma agree_except_other_event (b : nat) (s s' : State) (ev : Event) :
  answers b ev = false ->
  agree_except b s s' ->
  agree_except_proc b (step opts (Running s) ev) (step opts (Running s') ev).
Proof.
  intros Hev Hagree. pose proof Hagree as (Hended & Hb & Hst & Hlen & Hsame & Hcalls).
  destruct ev as [line | err | | b' r | b' r]; simpl in *.
  - rewrite <- Hended. destruct (stream_ended s); [split; [reflexivity | exact Hagree]|].
    destruct (on_data opts s line) as [e | t] eqn:Hd.
    + rewrite (on_data_throws s s' line e Hd). split; [reflexivity | exact Hagree].
    + destruct (on_data_inr _ _ _ Hd) as (wki & obj & Hv & ->).
      rewrite (on_data_valid s' _ _ _ Hv).
      split; [reflexivity | apply agree_except_accept, Hagree].
  - rewrite <- Hended. destruct (stream_ended s); (split; [reflexivity|]); exact Hagree.
  - rewrite <- Hended. destruct (stream_ended s); (split; [reflexivity|]);
      [exact Hagree | apply agree_except_on_end, Hagree].
  - apply Nat.eqb_neq in Hev. split; [reflexivity|]. simpl.
    unfold on_putData_reply. rewrite (Hsame b' Hev).
    destruct (publishPromises s' !! b') as [[stmts | | |]|]; try exact Hagree.
    destruct r as [bodyHashes | message]; [destruct (negb _)|];
      try (apply agree_except_settle; assumption).
    apply (agree_except_update b b' s s' _ _
             (AwaitPublish bodyHashes (rewrite_objects bodyHashes stmts))
             [PublishCall b' (publishOpts opts) (rewrite_objects bodyHashes stmts)]);
      auto.
  - apply Nat.eqb_neq in Hev. split; [reflexivity|]. simpl.
    unfold on_publish_reply. rewrite (Hsame b' Hev).
    destruct (publishPromises s' !! b') as [[| bodyHashes stmts | |]|]; try exact Hagree.
    destruct r as [statementIds | message]; apply agree_except_settle; assumption.
Qed.

(** The run, and the run in which batch [b] is never answered. *)
Lemma isolation (b : nat) (trace : list Event) (p p' : Process) :
  agree_except_proc b p p' ->
  agree_except_proc b (fold_left (step opts) trace p)
                      (fold_left (step opts) (unanswered b trace) p').
Proof.
  revert p p'. induction trace as [|ev trace IH]; intros p p' Hagree; [exact Hagree|].
  unfold unanswered. rewrite filter_cons. fold (unanswered b trace).
  destruct (answers b ev) eqn:Hev.
  - rewrite decide_False by discriminate. cbn [fold_left]. apply IH.
    destruct Hagree as (Hcrash & Hagree).
    destruct p as [s | e s]; [|split; assumption].
    split; [|apply agree_except_own_answer; assumption].
    rewrite <- Hcrash.
    destruct ev as [line | err | | b' r | b' r]; simpl in Hev; try discriminate; reflexivity.
  - rewrite decide_True by reflexivity. cbn [fold_left]. apply IH.
    destruct Hagree as (Hcrash & Hagree).
    destruct p as [s | e s], p' as [s' | e' s']; try discriminate.
    + apply agree_except_other_event; assumption.
    + split; assumption.
Qed.

Lemma ingest_calls_stored (b : nat) (cs cs' : list Call) :
  ingest_calls b cs = ingest_calls b cs' -> stored_batches cs = stored_batches cs'.
Proof.
  assert (Hkeep : forall l, stored_batches (ingest_calls b l) = stored_batches l).
  { induction l as [|c l IH]; [reflexivity|].
    unfold ingest_calls. rewrite filter_cons. fold (ingest_calls b l).
    case_decide as Hd.
    - destruct c; unfold stored_batches in *; simpl; [f_equal|]; exact IH.
    - destruct c as [b0 bodies | b0 po sts]; [contradiction Hd; reflexivity|].
      unfold stored_batches in *; simpl. exact IH. }
  intros Heq. rewrite <- (Hkeep cs), <- (Hkeep cs'), Heq. reflexivity.
Qed.

Lemma ingest_calls_elem (b : nat) (cs : list Call) (c : Call) :
  call_batch c <> b -> (c ∈ cs <-> c ∈ ingest_calls b cs).
Proof.
  intros Hne. unfold ingest_calls. rewrite list_elem_of_filter.
  apply Nat.eqb_neq in Hne. rewrite Hne, andb_false_r. tauto.
Qed.

(** On the runtime of [step]: whatever answers batch [b] receives,
    failures included, the run agrees with the run in which [b] is never
    answered on whether and how the process ends, on the buffer, on every
    store request, and on the promises and the requests of every other
    batch.  Of the batch errors the console gets at most one, after the
    stream has ended, the message of a rejected batch. *)
Lemma unanswered_batch_agrees (trace : list Event) (b : nat) :
  let p := run opts trace in
  let p' := run opts (unanswered b trace) in
  let s := state_of p in
  let s' := state_of p' in
  crash_of p = crash_of p' /\
  statementBodies s = statementBodies s' /\
  stored_batches (calls s) = stored_batches (calls s') /\
  (forall b', b' <> b -> publishPromises s !! b' = publishPromises s' !! b') /\
  (forall c, call_batch c <> b -> (c ∈ calls s <-> c ∈ calls s')) /\
  length (publish_errors (console s)) <= 1 /\
  (forall message,
     ErrPublishing message ∈ console s ->
     stream_ended s = true /\ exists b0, publishPromises s !! b0 = Some (Rejected message)) /\
  (stream_ended s = true ->
   (exists b0 message, publishPromises s !! b0 = Some (Rejected message)) ->
   exists message, publish_errors (console s) = [message]).
Proof.
  intros p p' s s'.
  assert (Hiso : agree_except_proc b p p').
  { apply isolation. split; [reflexivity|]. repeat split. }
  destruct Hiso as (Hcrash & _ & Hb & _ & _ & Hsame & Hcalls).
  fold s s' in Hb, Hsame, Hcalls.
  pose proof (join_inv_run trace) as Hinv. fold p s in Hinv. unfold join_inv in Hinv.
  split; [exact Hcrash|]. split; [exact Hb|].
  split; [exact (ingest_calls_stored b _ _ Hcalls)|]. split; [exact Hsame|].
  split; [intros c Hc; rewrite (ingest_calls_elem b (calls s) c Hc),
                         (ingest_calls_elem b (calls s') c Hc), Hcalls; tauto|].
  unfold stream_ended. destruct (join s).
  - destruct Hinv as (He & _). rewrite He. split; [simpl; lia|]. split.
    + intros message Hin. exfalso.
      assert (Hm : message ∈ publish_errors (console s))
        by (apply list_elem_of_omap; exists (ErrPublishing message); auto).
      rewrite He in Hm. apply elem_of_nil in Hm. exact Hm.
    + discriminate.
  - destruct Hinv as (He & _ & Hnr & _). rewrite He. split; [simpl; lia|]. split.
    + intros message Hin. exfalso.
      assert (Hm : message ∈ publish_errors (console s))
        by (apply list_elem_of_omap; exists (ErrPublishing message); auto).
      rewrite He in Hm. apply elem_of_nil in Hm. exact Hm.
    + intros _ (b0 & message & Hb0). exfalso.
      rewrite Forall_lookup in Hnr. specialize (Hnr _ _ Hb0). discriminate.
  - destruct Hinv as [(m & b0 & He & _ & Hb0) | (He & Hall & _)]; rewrite He.
    + split; [simpl; lia|]. split; [|eauto].
      intros message Hin. split; [reflexivity|].
      assert (Hm : message ∈ publish_errors (console s))
        by (apply list_elem_of_omap; exists (ErrPublishing message); auto).
      rewrite He in Hm. apply list_elem_of_singleton in Hm. subst. eauto.
    + split; [simpl; lia|]. split.
      * intros message Hin. exfalso.
        assert (Hm : message ∈ publish_errors (console s))
          by (apply list_elem_of_omap; exists (ErrPublishing message); auto).
        rewrite He in Hm. apply elem_of_nil in Hm. exact Hm.
      * intros _ (b0 & message & Hb0). exfalso.
        rewrite Forall_lookup in Hall. specialize (Hall _ _ Hb0). discriminate.
Qed.

End Properties.

(** ** The putData command *)

Section PutDataProperties.
Variable batchSize : Z.
Variable streamName : string.

Lemma putData_run_snoc (trace : list PutData.Event) (ev : PutData.Event) :
  PutData.run batchSize streamName (trace ++ [ev])
  = PutData.step batchSize streamName (PutData.run batchSize streamName trace) ev.
Proof. unfold PutData.run. rewrite fold_left_app. reflexivity. Qed.

(** The store calls are full chunks of the records, in order; what is left
    is in [items], below the flush size. *)
Lemma putData_chunks (trace : list PutData.Event) :
  let s := PutData.run batchSize streamName trace in
  let size := Z.to_nat (Z.max 1 batchSize) in
  concat (PutData.sent s) ++ PutData.items s = PutData.records trace /\
  Forall (fun batch => length batch = size) (PutData.sent s) /\
  length (PutData.items s) < size.
Proof.
  induction trace as [|ev trace IH] using rev_ind.
  - simpl. repeat split; [constructor | lia].
  - rewrite putData_run_snoc. unfold PutData.records. rewrite omap_app.
    fold (PutData.records trace).
    set (s := PutData.run batchSize streamName trace) in *.
    simpl in IH. destruct IH as (Hcat & Hfull & Hlen).
    destruct ev as [obj | err | | r]; simpl; rewrite ?app_nil_r; auto.
    unfold PutData.on_data.
    destruct (_ >=? _)%Z eqn:Hge; rewrite Z.geb_leb in Hge; simpl.
    + apply Z.leb_le in Hge. rewrite length_app in Hge. simpl in Hge.
      rewrite concat_app. simpl. rewrite !app_nil_r, app_assoc, Hcat.
      repeat split; [|lia].
      apply Forall_app. split; [exact Hfull|]. constructor; [|constructor].
      rewrite length_app. simpl. lia.
    + apply Z.leb_gt in Hge. rewrite length_app in Hge. simpl in Hge.
      rewrite app_assoc, Hcat. repeat split; auto.
      rewrite length_app. simpl. lia.
Qed.

Lemma length_concat_uniform {A : Type} (size : nat) (l : list (list A)) :
  Forall (fun batch => length batch = size) l ->
  length (concat l) = length l * size.
Proof.
  induction 1 as [|batch l Hb _ IH]; [reflexivity|].
  simpl. rewrite length_app, Hb, IH. reflexivity.
Qed.

Lemma records_no_data (post : list PutData.Event) :
  forallb (fun ev => negb (PutData.is_data ev)) post = true ->
  PutData.records post = [].
Proof.
  induction post as [|ev post IH]; [reflexivity|].
  simpl. intros [Hev Hpost]%andb_prop.
  destruct ev; try discriminate; exact (IH Hpost).
Qed.

(** C9: when the stream ends after N records and N is no multiple of
    [batchSize], the last [N mod batchSize] records are still in [items]
    after every later event: the store calls of the whole run carry the
    first [N - N mod batchSize] records and nothing else, each call has
    exactly [batchSize] records, and the 'end' event changes nothing. *)
Theorem partial_batch_is_never_sent (pre post : list PutData.Event) :
  (1 <= batchSize)%Z ->
  forallb (fun ev => negb (PutData.is_data ev)) post = true ->
  let n := length (PutData.records pre) in
  let r := n mod Z.to_nat batchSize in
  r <> 0 ->
  let s := PutData.run batchSize streamName (pre ++ post) in
  PutData.items s = drop (n - r) (PutData.records pre) /\
  length (PutData.items s) = r /\
  concat (PutData.sent s) = take (n - r) (PutData.records pre) /\
  Forall (fun batch => Z.of_nat (length batch) = batchSize) (PutData.sent s) /\
  PutData.step batchSize streamName s PutData.End = s.
Proof.
  intros Hsize Hpost n r Hr s.
  destruct (putData_chunks (pre ++ post)) as (Hcat & Hfull & Hlen). fold s in Hcat, Hfull, Hlen.
  unfold PutData.records in Hcat. rewrite omap_app in Hcat.
  fold (PutData.records pre) (PutData.records post) in Hcat.
  rewrite (records_no_data post Hpost), app_nil_r in Hcat.
  replace (Z.to_nat (Z.max 1 batchSize)) with (Z.to_nat batchSize) in * by lia.
  set (size := Z.to_nat batchSize) in *.
  pose proof (length_concat_uniform size _ Hfull) as Hsent.
  assert (Hn : n = length (PutData.sent s) * size + length (PutData.items s)).
  { subst n. rewrite <- Hcat, length_app, Hsent. reflexivity. }
  assert (Hmod : r = length (PutData.items s)).
  { subst r. rewrite Hn, Nat.add_comm, Nat.Div0.mod_add. apply Nat.mod_small, Hlen. }
  assert (Hcut : n - r = length (concat (PutData.sent s))) by lia.
  rewrite Hcut, <- Hcat.
  rewrite drop_app_length, take_app_length.
  repeat split; auto.
  eapply Forall_impl; [exact Hfull|]. intros batch Hb. simpl in Hb. lia.
Qed.

End PutDataProperties.

(** ** The report of a batch *)

(** The window that [slice(i, i + k)] cuts for a loop index [i] and a
    non-negative [k]. *)
Lemma slice_window {A : Type} (l : list A) (i : nat) (k : Z) :
  (0 <= k)%Z ->
  slice l (Z.of_nat i) (Z.of_nat i + k) = take (Z.to_nat k) (drop i l).
Proof.
  intros Hk. unfold slice.
  replace (Z.of_nat i <? 0)%Z with false by (symmetry; apply Z.ltb_ge; lia).
  replace (Z.of_nat i + k <? 0)%Z with false by (symmetry; apply Z.ltb_ge; lia).
  destruct (decide (i <= length l)) as [Hle | Hgt].
  - replace (Z.to_nat (Z.min (Z.of_nat i) (Z.of_nat (length l)))) with i by lia.
    destruct (decide (Z.to_nat k <= length l - i)) as [Hfit | Hover].
    + f_equal. lia.
    + rewrite !take_ge by (rewrite length_drop; lia). reflexivity.
  - replace (Z.to_nat (Z.min (Z.of_nat i) (Z.of_nat (length l)))) with (length l) by lia.
    rewrite !drop_ge by lia. rewrite !take_nil. reflexivity.
Qed.

(** What the loop of [printBatchResults] prints at index [g]: the members
    at positions [g .. g + compoundSize) of the batch, not those at
    [g * compoundSize .. g * compoundSize + compoundSize). *)
Lemma printBatchResults_window bodyHashes statementIds stmts (compoundSize : Z)
    (g : nat) (id : string) :
  (0 <= compoundSize)%Z ->
  statementIds !! g = Some id ->
  printBatchResults bodyHashes statementIds stmts compoundSize !! g =
    Some (LogReport id
            (imap (fun idx st =>
                     {| object := element (take (Z.to_nat compoundSize) (drop g bodyHashes)) idx;
                        refs := refs st; tags := tags st |})
                  (take (Z.to_nat compoundSize) (drop g stmts)))).
Proof.
  intros Hk Hg. unfold printBatchResults. rewrite list_lookup_imap, Hg. simpl.
  unfold printGroup. rewrite !slice_window by exact Hk. reflexivity.
Qed.

(** Without compound statements the report is the one the specification
    describes. *)
Lemma printBatchResults_single bodyHashes statementIds stmts :
  printBatchResults bodyHashes statementIds stmts 1
  = specBatchResults bodyHashes statementIds stmts 1.
Proof.
  unfold printBatchResults, specBatchResults. apply imap_ext.
  intros g id _. unfold printGroup, specGroup. rewrite Z.mul_1_r. reflexivity.
Qed.

(** ** Concrete runs *)

(** C2 does not hold as it is worded: with two batches whose store calls
    both fail, after the end of the stream, the message of the second
    failure never reaches the console, and the message of the first is
    printed while the second batch has not settled; the run is the same on
    either runtime.  And on the strict runtime a store call that fails
    while the stream flows ends the process: its message is not logged and
    the second record is never stored. *)
Lemma second_batch_error_is_lost :
  ~ every_batch_error_logged
      (state_of (run (demo_opts 1 false None) two_failures)) /\
  ~ errors_logged_after_all_settled (demo_opts 1 false None) two_failures /\
  strict_run (demo_opts 1 false None) two_failures
  = Going (state_of (run (demo_opts 1 false None) two_failures)) /\
  exit_of (strict_run (demo_opts 1 false None) early_failure)
  = Some (UnhandledRejection "e0") /\
  console (strict_state (strict_run (demo_opts 1 false None) early_failure)) = [] /\
  stored_batches (calls (strict_state (strict_run (demo_opts 1 false None) early_failure)))
  = [[rec_a]].
Proof.
  split; [|split; [|vm_compute; auto]].
  - intros Hall. specialize (Hall 1 "e1" eq_refl).
    vm_compute in Hall. apply list_elem_of_singleton in Hall. discriminate.
  - intros Hall.
    specialize (Hall (take 4 two_failures) (drop 4 two_failures) "e0" eq_refl).
    assert (Hin : ErrPublishing "e0"
                    ∈ console (state_of (run (demo_opts 1 false None) (take 4 two_failures))))
      by (vm_compute; constructor).
    specialize (Hall Hin). vm_compute in Hall.
    inversion Hall as [|? ? _ Hrest]; subst.
    inversion Hrest as [|? ? Hsettled _]; subst. discriminate.
Qed.



(** What the run with an early failure leaves behind on the runtime of
    [step]: both records stored, the message logged at the end of the
    stream. *)
Lemma early_failure_outcome :
  let s := state_of (run (demo_opts 1 false None) early_failure) in
  publishPromises s
  = [Rejected "e0";
     AwaitPutData
       [{| object := JObj [("schema", JObj [("/", JStr "QmSchema")]); ("data", rec_b)];
           refs := ["2"];
           tags := [] |}]] /\
  console s = [ErrPublishing "e0"] /\
  stored_batches (calls s) = [[rec_a]; [rec_b]].
Proof. vm_compute. auto. Qed.

(** What the run with two failing batches leaves behind. *)
Lemma two_failures_outcome :
  let s := state_of (run (demo_opts 1 false None) two_failures) in
  publishPromises s = [Rejected "e0"; Rejected "e1"] /\
  console s = [ErrPublishing "e0"] /\
  stored_batches (calls s) = [[rec_a]; [rec_b]].
Proof. vm_compute. auto. Qed.


(** C1: with compound statements of two, a batch of three statements and
    the two statement ids the node returns for it, the report has two
    entries, but the second holds the members at positions 1 and 2 where
    the grouping of the node puts position 2 alone: the loop slices from
    its index [i], not from [i * compoundSize].  The same report is what a
    whole run prints. *)
Theorem compound_report_slices_from_loop_index :
  let hashes := ["h0"; "h1"; "h2"] in
  let stmts := [stored "h0" "1"; stored "h1" "2"; stored "h2" "3"] in
  printBatchResults hashes ["s0"; "s1"] stmts 2
    = [LogReport "s0" [stored "h0" "1"; stored "h1" "2"];
       LogReport "s1" [stored "h1" "2"; stored "h2" "3"]] /\
  specBatchResults hashes ["s0"; "s1"] stmts 2
    = [LogReport "s0" [stored "h0" "1"; stored "h1" "2"];
       LogReport "s1" [stored "h2" "3"]] /\
  console (state_of (run (demo_opts 3 false (Some 2%Z)) compound_run))
    = [LogReport "s0" [stored "h0" "1"; stored "h1" "2"];
       LogReport "s1" [stored "h1" "2"; stored "h2" "3"];
       LogAllPublished].
Proof. vm_compute. auto. Qed.

(** ** The theorems at concrete runs *)


Lemma count_mismatch_is_batch_error_witness :
  publishPromises
    (state_of (run (demo_opts 1 false None)
                 ([StreamData (Parsed (Some "1") rec_a)] ++
                  PutDataReply 0 (Resolved ["h0"; "h1"]) :: [StreamEnd]))) !! 0
  = Some (Rejected "Expected 1 results from putting data blobs, received 2").
Proof.
  refine (proj1 (proj2 (@count_mismatch_is_batch_error demo_schema (demo_opts 1 false None)
                          [StreamData (Parsed (Some "1") rec_a)] [StreamEnd]
                          (state_of (run (demo_opts 1 false None)
                                       [StreamData (Parsed (Some "1") rec_a)]))
                          0 _ ["h0"; "h1"] eq_refl eq_refl _))).
  simpl. discriminate.
Defined.

Lemma missing_identifier_aborts_witness :
  crash_of (run (demo_opts 2 false None)
              ([StreamData (Parsed (Some "1") rec_a)] ++
               StreamData (Parsed (Some "") rec_b) :: [StreamEnd]))
  = Some (NoIdError rec_b).
Proof.
  destruct (@missing_identifier_aborts demo_schema (demo_opts 2 false None)
              [StreamData (Parsed (Some "1") rec_a)] [StreamEnd]
              (state_of (run (demo_opts 2 false None) [StreamData (Parsed (Some "1") rec_a)]))
              (Some "") rec_b eq_refl eq_refl (or_intror eq_refl))
    as (e & Hrun & _ & Hpass & _).
  rewrite Hrun. simpl. f_equal. apply Hpass. right. reflexivity.
Defined.

Lemma foreign_schema_aborts_witness :
  crash_of (run (demo_opts 2 false None)
              ([StreamData (Parsed (Some "1") rec_a)] ++
               StreamData (Parsed (Some "2") (rec_linked "QmOther")) :: [StreamEnd]))
  = Some (SchemaMismatch (JObj [("/", JStr "QmOther")]) "QmSchema").
Proof.
  assert (Hne : "QmOther" <> schemaReference (demo_opts 2 false None)) by discriminate.
  destruct (@foreign_schema_aborts demo_schema (demo_opts 2 false None)
              [StreamData (Parsed (Some "1") rec_a)] [StreamEnd]
              (state_of (run (demo_opts 2 false None) [StreamData (Parsed (Some "1") rec_a)]))
              (Some "2") (rec_linked "QmOther") "QmOther" eq_refl eq_refl eq_refl eq_refl Hne)
    as (e & Hrun & _ & Hwhen & _).
  rewrite Hrun. simpl. f_equal.
  apply (Hwhen "2" eq_refl); [discriminate | right; reflexivity].
Defined.

Lemma success_after_every_batch_fulfilled_witness :
  publishPromises (state_of (run (demo_opts 1 false None) one_published)) = [Fulfilled] /\
  state_of (run (demo_opts 1 false None)
              (one_published ++ [StreamData (Parsed (Some "2") rec_b)]))
    = state_of (run (demo_opts 1 false None) one_published).
Proof.
  assert (Hin : LogAllPublished
                  ∈ console (state_of (run (demo_opts 1 false None) one_published)))
    by (vm_compute; repeat constructor).
  destruct (@success_after_every_batch_fulfilled demo_schema (demo_opts 1 false None)
              one_published [StreamData (Parsed (Some "2") rec_b)] Hin)
    as (_ & _ & _ & Hsame & _).
  split; [reflexivity | exact Hsame].
Defined.

Lemma partial_batch_is_never_sent_witness :
  PutData.items
    (PutData.run 2 "standard input"
       ([PutData.Data rec_a; PutData.Data rec_b; PutData.Data rec_c] ++
        [PutData.End; PutData.Answer (Resolved ["h0"; "h1"])]))
  = [rec_c].
Proof.
  assert (Hr : length (PutData.records
                         [PutData.Data rec_a; PutData.Data rec_b; PutData.Data rec_c])
               mod Z.to_nat 2 <> 0) by (simpl; discriminate).
  assert (Hsize : (1 <= 2)%Z) by discriminate.
  exact (proj1 (@partial_batch_is_never_sent 2 "standard input"
                  [PutData.Data rec_a; PutData.Data rec_b; PutData.Data rec_c]
                  [PutData.End; PutData.Answer (Resolved ["h0"; "h1"])]
                  Hsize eq_refl Hr)).
Defined.

(** * Further properties *)

Section FurtherProperties.
Context `{SchemaModule}.
Variable opts : Opts.

(** An invariant may be checked turn by turn on the states a run reaches. *)
Lemma reachable_invariant (Inv : State -> Prop) :
  Inv initial ->
  (forall trace s ev,
     run opts trace = Running s -> Inv s -> Inv (state_of (step opts (Running s) ev))) ->
  forall trace, Inv (state_of (run opts trace)).
Proof.
  intros Hinit Hstep trace.
  induction trace as [|ev trace IH] using rev_ind; [exact Hinit|].
  rewrite run_snoc. destruct (run opts trace) as [s | e s] eqn:Hrun; [|exact IH].
  exact (Hstep trace s ev Hrun IH).
Qed.

(** *** Which runs abort *)

Lemma rejection_Some (s : State) (line : JqOutput) (e : FatalError) :
  rejection opts line = Some e <-> on_data opts s line = inl e.
Proof.
  unfold rejection, on_data.
  destruct line as [jsonString | [wki|] obj]; simpl.
  - split; intros [= ->]; reflexivity.
  - destruct (skipSchemaValidation opts); simpl.
    + destruct (Nat.ltb (String.length wki) 1); simpl;
        [split; intros [= ->]; reflexivity|].
      destruct (isSelfDescribingRecord obj); simpl.
      * destruct (strict_neq_string _ _); simpl;
          [split; intros [= ->]; reflexivity|].
        destruct (dryRun opts); [split; discriminate|].
        destruct (_ >=? _)%Z; split; discriminate.
      * destruct (dryRun opts); [split; discriminate|].
        destruct (_ >=? _)%Z; split; discriminate.
    + destruct (validate (schema opts) obj) as [|message]; simpl;
        [|split; intros [= ->]; reflexivity].
      destruct (Nat.ltb (String.length wki) 1); simpl;
        [split; intros [= ->]; reflexivity|].
      destruct (isSelfDescribingRecord obj); simpl.
      * destruct (strict_neq_string _ _); simpl;
          [split; intros [= ->]; reflexivity|].
        destruct (dryRun opts); [split; discriminate|].
        destruct (_ >=? _)%Z; split; discriminate.
      * destruct (dryRun opts); [split; discriminate|].
        destruct (_ >=? _)%Z; split; discriminate.
  - destruct (skipSchemaValidation opts); simpl.
    + split; intros [= ->]; reflexivity.
    + destruct (validate (schema opts) obj) as [|message]; simpl;
        split; intros [= ->]; reflexivity.
Qed.

Lemma ended_never_crashes (trace : list Event) (s : State) :
  stream_ended s = true ->
  crash_of (fold_left (step opts) trace (Running s)) = None.
Proof.
  revert s. induction trace as [|ev trace IH]; intros s Hended; [reflexivity|].
  destruct ev as [line | err | | b r | b r]; cbn [fold_left step]; rewrite ?Hended.
  - apply IH, Hended.
  - apply IH, Hended.
  - apply IH, Hended.
  - apply IH. rewrite on_putData_reply_stream_ended. exact Hended.
  - apply IH. rewrite on_publish_reply_stream_ended. exact Hended.
Qed.

(** The exception that ends a run is the error of the first line that
    fails a check of the 'data' handler; no other event throws. *)
Lemma crash_is_first_fatal (trace : list Event) :
  crash_of (run opts trace) = first_fatal opts (delivered trace).
Proof.
  unfold run. generalize initial, (eq_refl : stream_ended initial = false).
  induction trace as [|ev trace IH]; intros s Hended; [reflexivity|].
  destruct ev as [line | err | | b r | b r]; cbn [fold_left step delivered first_fatal];
    rewrite ?Hended.
  - destruct (on_data opts s line) as [e | s'] eqn:Hd.
    + rewrite crashed_forever. apply (rejection_Some s) in Hd. rewrite Hd. reflexivity.
    + destruct (rejection opts line) as [e|] eqn:Hrej.
      { apply (rejection_Some s) in Hrej. congruence. }
      destruct (on_data_inr opts _ _ _ Hd) as (wki & obj & _ & ->).
      apply IH. rewrite accept_stream_ended. exact Hended.
  - apply IH. exact Hended.
  - apply ended_never_crashes. apply on_end_shape.
  - apply IH. rewrite on_putData_reply_stream_ended. exact Hended.
  - apply IH. rewrite on_publish_reply_stream_ended. exact Hended.
Qed.

(** X2: a line that does not parse ends the run with the parse error, and
    a record that fails validation, when validation is not skipped, ends
    it with the validation error and the message of the validator,
    whatever its identifier: validation runs before the identifier check.
    The process stops in the state it had before the line. *)
Theorem unparseable_or_invalid_line_aborts (pre post : list Event) (s : State) :
  run opts pre = Running s ->
  stream_ended s = false ->
  (forall jsonString,
     run opts (pre ++ StreamData (Unparseable jsonString) :: post)
     = Crashed (ParseError jsonString) s) /\
  (forall wki obj message,
     skipSchemaValidation opts = false ->
     validate (schema opts) obj = ValidationFailed message ->
     run opts (pre ++ StreamData (Parsed wki obj) :: post)
     = Crashed (ValidationError message obj) s).
Proof.
  intros Hpre Hended. split.
  - intros jsonString. apply crash_at; auto.
  - intros wki obj message Hskip Hval. apply crash_at; auto.
    unfold on_data. rewrite Hskip, Hval. reflexivity.
Qed.

(** X3: a self-describing record whose schema link is the schema reference
    of the run itself, valid and with an identifier, ends the run with the
    schema mismatch error all the same: [objectPath.get(obj, 'schema', '/')]
    reads [obj.schema], with ['/'] as the default value, so the handler
    compares the link object with the reference string. *)
Theorem matching_schema_link_aborts (pre post : list Event) (s : State)
    (id : string) (obj : JsValue) :
  run opts pre = Running s ->
  stream_ended s = false ->
  isSelfDescribingRecord obj = true ->
  schema_link obj = Some (schemaReference opts) ->
  id <> "" ->
  skipSchemaValidation opts = true \/ validate (schema opts) obj = ValidationOk ->
  run opts (pre ++ StreamData (Parsed (Some id) obj) :: post)
  = Crashed (SchemaMismatch (objectPath_get obj "schema" (JStr "/")) (schemaReference opts)) s.
Proof.
  intros Hpre Hended Hsd Hlink Hid Hval. apply crash_at; auto.
  unfold on_data.
  assert (Hv : (if skipSchemaValidation opts then ok tt
                else match validate (schema opts) obj with
                     | ValidationFailed message => throw (ValidationError message obj)
                     | ValidationOk => ok tt
                     end) = ok tt).
  { destruct Hval as [-> | Hok]; [reflexivity|].
    destruct (skipSchemaValidation opts); [reflexivity|]. rewrite Hok. reflexivity. }
  rewrite Hv. simpl.
  destruct id as [|c id]; [contradiction|]. simpl.
  rewrite Hsd, (schema_link_differs obj _ (schemaReference opts) Hlink). reflexivity.
Qed.

(** *** The outcome on the console *)

(** X4: once the stream has ended and every batch is fulfilled, the success
    message has been printed, exactly once, and no error message; in a dry
    run it is never printed.  An empty input is such a run: its end alone
    prints the message. *)
Theorem all_batches_fulfilled_prints_success (trace : list Event) :
  let s := state_of (run opts trace) in
  stream_ended s = true ->
  Forall (fun p => p = Fulfilled) (publishPromises s) ->
  successes (console s) = (if dryRun opts then 0 else 1) /\
  publish_errors (console s) = [].
Proof.
  intros s Hended Hall.
  pose proof (join_inv_run opts trace) as Hinv. fold s in Hinv.
  unfold join_inv in Hinv. unfold stream_ended in Hended.
  destruct (join s); try discriminate.
  - destruct Hinv as (_ & _ & _ & Hnot). contradiction.
  - destruct Hinv as [(m & b & _ & _ & Hb) | (He & _ & Hs)]; [|auto].
    rewrite Forall_lookup in Hall. specialize (Hall _ _ Hb). discriminate.
Qed.

(** X5: a dry run prints nothing but one line [refs: [wki], tags: []] per
    record and the read errors of the stream: no report, no success
    message, no publishing error. *)
Theorem dry_run_console (trace : list Event) :
  dryRun opts = true ->
  Forall (dry_line opts) (console (state_of (run opts trace))).
Proof.
  intros Hdry.
  enough (Hinv : publishPromises (state_of (run opts trace)) = [] /\
                 statementBodies (state_of (run opts trace)) = [] /\
                 Forall (dry_line opts) (console (state_of (run opts trace))))
    by apply Hinv.
  apply (state_invariant opts (fun s => publishPromises s = [] /\ statementBodies s = [] /\
                                        Forall (dry_line opts) (console s))).
  - repeat split; constructor.
  - intros s wki obj _ (Hp & Hb & Hout). unfold accept. rewrite Hdry. simpl.
    repeat split; auto. apply Forall_app. split; [exact Hout|].
    constructor; [left; eauto | constructor].
  - intros s err _ (Hp & Hb & Hout). simpl. repeat split; auto.
    apply Forall_app. split; [exact Hout|]. constructor; [right; eauto | constructor].
  - intros s _ (Hp & Hb & Hout). unfold on_end. rewrite Hb. simpl.
    unfold promise_all. rewrite Hp. simpl. unfold on_all_fulfilled. rewrite Hdry. simpl.
    rewrite app_nil_r. auto.
  - intros s b r (Hp & Hb & Hout). unfold on_putData_reply. rewrite Hp. auto.
  - intros s b r (Hp & Hb & Hout). unfold on_publish_reply. rewrite Hp. auto.
Qed.

(** *** Failed remote calls *)

(** A settled promise never changes. *)
Lemma settled_stays (b : nat) (p : BatchPromise) (s : State) (ev : Event) :
  is_settled p = true ->
  publishPromises s !! b = Some p ->
  publishPromises (state_of (step opts (Running s) ev)) !! b = Some p.
Proof.
  intros Hp Hb.
  assert (Hlt : b < length (publishPromises s)) by (eapply lookup_lt_Some; eauto).
  destruct ev as [line | err | | b' r | b' r]; simpl.
  - destruct (stream_ended s); [exact Hb|].
    destruct (on_data opts s line) as [e | s'] eqn:Hd; simpl; [exact Hb|].
    destruct (on_data_inr opts _ _ _ Hd) as (wki & obj & _ & ->).
    destruct (accept_shape opts s wki obj) as (_ & [(-> & _) | (_ & _ & -> & _)]);
      [exact Hb | rewrite lookup_app_l by exact Hlt; exact Hb].
  - destruct (stream_ended s); exact Hb.
  - destruct (stream_ended s); [exact Hb|]. simpl.
    destruct (on_end_shape opts s) as (_ & _ & [(_ & -> & _) | (_ & -> & _)]);
      [exact Hb | rewrite lookup_app_l by exact Hlt; exact Hb].
  - destruct (on_putData_reply_shape opts s b' r) as [-> | (stmts & q & Hb' & _ & _ & -> & _)];
      [exact Hb|].
    rewrite list_lookup_insert_ne; [exact Hb|].
    intros ->. rewrite Hb in Hb'. injection Hb' as ->. discriminate.
  - destruct (on_publish_reply_shape opts s b' r)
      as [-> | (hashes & stmts & q & Hb' & _ & _ & _ & -> & _)]; [exact Hb|].
    rewrite list_lookup_insert_ne; [exact Hb|].
    intros ->. rewrite Hb in Hb'. injection Hb' as ->. discriminate.
Qed.

(** X6: when the store call of a batch fails, the promise of the batch is
    rejected with the message of the failure and stays so, and no publish
    request is ever sent for the batch. *)
Theorem failed_store_call_rejects_batch (pre post : list Event) (s : State) (b : nat)
    (stmts : list Statement) (message : string) :
  run opts pre = Running s ->
  publishPromises s !! b = Some (AwaitPutData stmts) ->
  let final := state_of (run opts (pre ++ PutDataReply b (Failed message) :: post)) in
  publishPromises final !! b = Some (Rejected message) /\
  forall po sts, PublishCall b po sts ∉ calls final.
Proof.
  intros Hpre Hb final.
  destruct (batch_inv_run opts pre) as (_ & _ & Hwait). rewrite Hpre in Hwait. simpl in Hwait.
  destruct (Hwait b stmts Hb) as (Hno & _).
  assert (Hlt : b < length (publishPromises s)) by (eapply lookup_lt_Some; eauto).
  subst final. rewrite run_app, Hpre. cbn [fold_left step].
  apply (steps_invariant opts (rejected_unpublished b message)).
  - intros s' ev. apply rejected_unpublished_step.
  - simpl. unfold on_putData_reply. rewrite Hb.
    destruct (settle_fields opts s b (Rejected message)) as (_ & _ & Hp & Hc).
    unfold rejected_unpublished. rewrite Hp, Hc, list_lookup_insert_eq by exact Hlt. auto.
Qed.

(** X7: when the publish call of a batch fails, the promise of the batch is
    rejected with the message of the failure and stays so; the failure
    prints no report, and it prints the message at once exactly when
    [Promise.all] is waiting, that is when the stream has ended and no
    other batch was rejected before. *)
Theorem failed_publish_call_rejects_batch (pre post : list Event) (s : State) (b : nat)
    (hashes : list string) (stmts : list Statement) (message : string) :
  run opts pre = Running s ->
  publishPromises s !! b = Some (AwaitPublish hashes stmts) ->
  publishPromises (state_of (run opts (pre ++ PublishReply b (Failed message) :: post))) !! b
    = Some (Rejected message) /\
  console (state_of (run opts (pre ++ [PublishReply b (Failed message)])))
    = console s ++ match join s with
                   | Waiting => [ErrPublishing message]
                   | _ => []
                   end.
Proof.
  intros Hpre Hb.
  assert (Hlt : b < length (publishPromises s)) by (eapply lookup_lt_Some; eauto).
  split.
  - rewrite run_app, Hpre. cbn [fold_left step].
    apply (steps_invariant opts (fun s' => publishPromises s' !! b = Some (Rejected message))).
    + intros s' ev. apply settled_stays. reflexivity.
    + simpl. unfold on_publish_reply. rewrite Hb.
      destruct (settle_fields opts s b (Rejected message)) as (_ & _ & -> & _).
      apply list_lookup_insert_eq, Hlt.
  - rewrite run_snoc, Hpre. simpl. unfold on_publish_reply. rewrite Hb.
    unfold settle. destruct (join s); simpl; rewrite ?app_nil_r; reflexivity.
Qed.

(** *** What the batches hold *)

Lemma valid_record_id (line : JqOutput) (wki : string) (obj : JsValue) :
  valid_record opts line = Some (wki, obj) -> wki <> "".
Proof.
  destruct line as [raw | [id|] o]; simpl; try discriminate.
  destruct (_ && _) eqn:Hchecks; [|discriminate].
  intros [= -> ->] ->.
  apply andb_prop in Hchecks as [[_ Hid]%andb_prop _]. discriminate.
Qed.

Lemma rewrite_objects_lookup (hashes : list string) (stmts : list Statement)
    (i : nat) (h : string) (st : Statement) :
  hashes !! i = Some h -> stmts !! i = Some st ->
  rewrite_objects hashes stmts !! i
  = Some {| object := JStr h; refs := refs st; tags := tags st |}.
Proof.
  intros Hh Hst. unfold rewrite_objects. rewrite list_lookup_imap, Hst. simpl.
  unfold element. rewrite Hh. reflexivity.
Qed.

Lemma rewrite_objects_addressed (hashes : list string) (bodies : list JsValue)
    (stmts : list Statement) :
  length hashes = length stmts ->
  Forall2 (drafted opts) bodies stmts ->
  Forall2 (fun h st => object st = JStr h) hashes (rewrite_objects hashes stmts) /\
  Forall addressed (rewrite_objects hashes stmts).
Proof.
  intros Hlen Hdraft.
  assert (Hlook : forall i st', rewrite_objects hashes stmts !! i = Some st' ->
            exists h st, hashes !! i = Some h /\ stmts !! i = Some st /\
              st' = {| object := JStr h; refs := refs st; tags := tags st |}).
  { intros i st' Hi. unfold rewrite_objects in Hi. rewrite list_lookup_imap in Hi.
    destruct (stmts !! i) as [st|] eqn:Hst; [|discriminate].
    assert (Hlt : i < length hashes) by (rewrite Hlen; eapply lookup_lt_Some; eauto).
    apply lookup_lt_is_Some in Hlt as [h Hh].
    exists h, st. simpl in Hi. injection Hi as <-.
    unfold element. rewrite Hh. auto. }
  split.
  - apply Forall2_same_length_lookup. split.
    + unfold rewrite_objects. rewrite length_imap. exact Hlen.
    + intros i h st' Hh Hi. destruct (Hlook i st' Hi) as (h' & st & Hh' & _ & ->).
      simpl. congruence.
  - apply Forall_lookup. intros i st' Hi.
    destruct (Hlook i st' Hi) as (h & st & _ & Hst & ->).
    assert (Hlt : i < length bodies)
      by (rewrite (Forall2_length _ _ _ Hdraft); eapply lookup_lt_Some; eauto).
    apply lookup_lt_is_Some in Hlt as [obj Hobj].
    destruct (Forall2_lookup_lr _ _ _ _ _ _ Hdraft Hobj Hst) as (_ & Href & Htags).
    repeat split; simpl; eauto.
Qed.

Lemma contents_inv_flush (s : State) (bodies : list JsValue) (stmts : list Statement) :
  calls_bounded s -> contents_inv opts s -> Forall2 (drafted opts) bodies stmts ->
  (forall b stmts' bodies',
     (publishPromises s ++ [AwaitPutData stmts]) !! b = Some (AwaitPutData stmts') ->
     PutDataCall b bodies' ∈ calls s ++ [PutDataCall (length (publishPromises s)) bodies] ->
     Forall2 (drafted opts) bodies' stmts') /\
  (forall b hashes stmts',
     (publishPromises s ++ [AwaitPutData stmts]) !! b = Some (AwaitPublish hashes stmts') ->
     Forall2 (fun h st => object st = JStr h) hashes stmts' /\ Forall addressed stmts') /\
  (forall b po stmts',
     PublishCall b po stmts' ∈ calls s ++ [PutDataCall (length (publishPromises s)) bodies] ->
     po = publishOpts opts /\ Forall addressed stmts').
Proof.
  intros Hbound (_ & Hwait & Hpub & Hcalls) Hdraft. split; [|split].
  - intros b stmts' bodies' Hb Hin. rewrite lookup_app in Hb.
    apply elem_of_app in Hin as [Hin | Hin%list_elem_of_singleton].
    + specialize (Hbound _ Hin). simpl in Hbound.
      apply lookup_lt_is_Some in Hbound as [p Hp]. rewrite Hp in Hb. injection Hb as ->.
      exact (Hwait _ _ _ Hp Hin).
    + injection Hin as -> ->.
      rewrite (proj2 (lookup_ge_None _ _) (Nat.le_refl _)), Nat.sub_diag in Hb.
      injection Hb as <-. exact Hdraft.
  - intros b hashes stmts' Hb. rewrite lookup_app in Hb.
    destruct (publishPromises s !! b) as [p|] eqn:Hp.
    + injection Hb as ->. exact (Hpub _ _ _ Hp).
    + destruct (b - length (publishPromises s)) as [|n]; discriminate.
  - intros b po stmts' [Hin | Hin%list_elem_of_singleton]%elem_of_app; [|discriminate].
    exact (Hcalls _ _ _ Hin).
Qed.

Lemma contents_inv_settled (s : State) (b : nat) (p : BatchPromise) (extra : list Call) :
  contents_inv opts s ->
  is_settled p = true ->
  (forall c, c ∈ extra -> False) ->
  (forall b' stmts bodies,
     <[b := p]> (publishPromises s) !! b' = Some (AwaitPutData stmts) ->
     PutDataCall b' bodies ∈ calls s -> Forall2 (drafted opts) bodies stmts) /\
  (forall b' hashes stmts,
     <[b := p]> (publishPromises s) !! b' = Some (AwaitPublish hashes stmts) ->
     Forall2 (fun h st => object st = JStr h) hashes stmts /\ Forall addressed stmts).
Proof.
  intros (_ & Hwait & Hpub & _) Hp _. split.
  - intros b' stmts bodies [(_ & -> & _) | (_ & Hb')]%list_lookup_insert_Some Hin;
      [discriminate | exact (Hwait _ _ _ Hb' Hin)].
  - intros b' hashes stmts [(_ & -> & _) | (_ & Hb')]%list_lookup_insert_Some;
      [discriminate | exact (Hpub _ _ _ Hb')].
Qed.

Lemma contents_inv_run (trace : list Event) : contents_inv opts (state_of (run opts trace)).
Proof.
  apply reachable_invariant.
  { unfold contents_inv. simpl. split; [constructor|]. split; [|split].
    - intros b stmts bodies Hb. discriminate.
    - intros b hashes stmts Hb. discriminate.
    - intros b po stmts Hin. apply elem_of_nil in Hin. contradiction. }
  intros pre s ev Hpre Hinv.
  pose proof (calls_bounded_run opts pre) as Hbound. rewrite Hpre in Hbound. simpl in Hbound.
  pose proof (batch_inv_run opts pre) as (_ & _ & Hstore). rewrite Hpre in Hstore.
  simpl in Hstore.
  pose proof Hinv as (Hbuf & Hwait & Hpub & Hcalls).
  destruct ev as [line | err | | b r | b r]; simpl.
  - destruct (stream_ended s); [exact Hinv|].
    destruct (on_data opts s line) as [e | s'] eqn:Hd; simpl; [exact Hinv|].
    destruct (on_data_inr opts _ _ _ Hd) as (wki & obj & Hv & ->).
    apply valid_record_id in Hv.
    unfold accept. destruct (dryRun opts); [exact Hinv|].
    set (stmt := {| object := describe opts obj; refs := [wki]; tags := [] |}).
    assert (Hbuf' : Forall2 (drafted opts) (statementBodies s ++ [obj]) (statements s ++ [stmt])).
    { apply Forall2_app; [exact Hbuf|]. constructor; [|constructor].
      repeat split. exists wki. auto. }
    destruct (_ >=? _)%Z; simpl.
    + split; [constructor|].
      exact (contents_inv_flush s _ _ Hbound Hinv Hbuf').
    + split; [exact Hbuf'|]. auto.
  - destruct (stream_ended s); exact Hinv.
  - destruct (stream_ended s); [exact Hinv|]. simpl.
    unfold contents_inv.
    destruct (on_end_shape opts s) as (_ & _ & [(_ & Hp & Hc) | (_ & Hp & Hc)]);
      rewrite Hp, Hc; unfold on_end;
      match goal with
      | |- context [promise_all opts ?t] =>
          destruct (promise_all_fields opts t) as (-> & -> & _ & _)
      end.
    + destruct (Nat.ltb _ _); simpl; auto.
    + split; [destruct (Nat.ltb _ _); exact Hbuf|].
      exact (contents_inv_flush s _ _ Hbound Hinv Hbuf).
  - destruct (on_putData_reply_shape opts s b r)
      as [-> | (stmts & p & Hb & Hbodies & Hstmts & Hps & Hc)]; [exact Hinv|].
    unfold contents_inv. rewrite Hbodies, Hstmts, Hps.
    destruct Hc as [(m & -> & -> & _) | (hashes & _ & Hlen & -> & ->)].
    + split; [exact Hbuf|].
      destruct (contents_inv_settled s b (Rejected m) [] Hinv eq_refl) as (H1 & H2).
      { intros c Hc. eapply elem_of_nil. exact Hc. }
      auto.
    + destruct (Hstore b stmts Hb) as (_ & bodies & Hin & _).
      destruct (rewrite_objects_addressed hashes bodies stmts Hlen (Hwait _ _ _ Hb Hin))
        as (Hobj & Haddr).
      split; [exact Hbuf|]. split; [|split].
      * intros b' stmts' bodies' [(_ & [=] & _) | (_ & Hb')]%list_lookup_insert_Some
          [Hin' | Hin'%list_elem_of_singleton]%elem_of_app; [|discriminate].
        exact (Hwait _ _ _ Hb' Hin').
      * intros b' hashes' stmts' [(_ & [= <- <-] & _) | (_ & Hb')]%list_lookup_insert_Some;
          [auto | exact (Hpub _ _ _ Hb')].
      * intros b' po stmts' [Hin' | Hin'%list_elem_of_singleton]%elem_of_app;
          [exact (Hcalls _ _ _ Hin')|].
        injection Hin' as -> -> ->. auto.
  - destruct (on_publish_reply_shape opts s b r)
      as [-> | (hashes & stmts & p & Hb & Hp & Hbodies & Hstmts & Hps & Hc)]; [exact Hinv|].
    unfold contents_inv. rewrite Hbodies, Hstmts, Hps, Hc.
    destruct (contents_inv_settled s b p [] Hinv Hp) as (H1 & H2).
    { intros c Hc'. eapply elem_of_nil. exact Hc'. }
    auto.
Qed.

(** X8: the buffer and every batch that waits for the store pair each
    payload with the statement drafted for it, index by index: the object
    of the statement is the payload itself when it is self-describing, and
    [{schema: {'/': schemaReference}, data: payload}] otherwise; the
    statement has one reference, a non-empty identifier, and no tags. *)
Theorem drafts_match_payloads (trace : list Event) :
  let s := state_of (run opts trace) in
  Forall2 (drafted opts) (statementBodies s) (statements s) /\
  forall b stmts bodies,
    publishPromises s !! b = Some (AwaitPutData stmts) ->
    PutDataCall b bodies ∈ calls s ->
    Forall2 (drafted opts) bodies stmts.
Proof.
  intros s. destruct (contents_inv_run trace) as (Hbuf & Hwait & _). auto.
Qed.

(** X9: every statement of every publish request carries a content address
    as its object, never the payload and never [undefined], exactly one
    reference, a non-empty identifier, and no tags; the request is made
    with the publish options of the run. *)
Theorem published_statements_are_addressed (trace : list Event) :
  forall b po stmts st,
    PublishCall b po stmts ∈ calls (state_of (run opts trace)) ->
    st ∈ stmts ->
    po = publishOpts opts /\
    exists h id, object st = JStr h /\ refs st = [id] /\ id <> "" /\ tags st = [].
Proof.
  intros b po stmts st Hin Hst.
  destruct (contents_inv_run trace) as (_ & _ & _ & Hcalls).
  destruct (Hcalls _ _ _ Hin) as (-> & Haddr).
  rewrite Forall_forall in Haddr.
  destruct (Haddr _ Hst) as ((h & Hh) & (id & Hid & Hne) & Htags).
  split; [reflexivity|]. exists h, id. auto.
Qed.

(** *** One Publisher invocation per batch *)

Lemma store_batches_app (cs extra : list Call) :
  store_batches (cs ++ extra) = store_batches cs ++ store_batches extra.
Proof. apply omap_app. Qed.

Lemma publish_batches_app (cs extra : list Call) :
  publish_batches (cs ++ extra) = publish_batches cs ++ publish_batches extra.
Proof. apply omap_app. Qed.

Lemma requests_inv_flush (s : State) (bodies : list JsValue) (stmts : list Statement) :
  requests_inv s -> requests_inv (publishBatch s bodies stmts).
Proof.
  intros (Hstore & Hnodup & Hpast). unfold requests_inv. simpl.
  rewrite store_batches_app, publish_batches_app, Hstore, length_app. simpl.
  rewrite app_nil_r, Nat.add_1_r, seq_S. repeat split; auto.
  intros b Hb. destruct (Hpast b Hb) as (p & Hp & Hnot).
  exists p. split; [|exact Hnot].
  rewrite lookup_app_l by (eapply lookup_lt_Some; eauto). exact Hp.
Qed.

Lemma requests_inv_settled (s : State) (b : nat) (p : BatchPromise) :
  requests_inv s -> b < length (publishPromises s) ->
  (forall stmts, p <> AwaitPutData stmts) ->
  forall b0, b0 ∈ publish_batches (calls s) ->
    exists q, <[b := p]> (publishPromises s) !! b0 = Some q /\
              forall stmts, q <> AwaitPutData stmts.
Proof.
  intros (_ & _ & Hpast) Hlt Hp b0 Hb0.
  destruct (decide (b = b0)) as [<- | Hne].
  - exists p. split; [apply list_lookup_insert_eq, Hlt | exact Hp].
  - rewrite list_lookup_insert_ne by exact Hne. exact (Hpast b0 Hb0).
Qed.

Lemma requests_inv_run (trace : list Event) : requests_inv (state_of (run opts trace)).
Proof.
  apply state_invariant.
  - repeat split; [constructor|]. intros b Hb. apply elem_of_nil in Hb. contradiction.
  - intros s wki obj _ Hs. unfold accept. destruct (dryRun opts); [exact Hs|].
    destruct (_ >=? _)%Z; [|exact Hs].
    exact (requests_inv_flush (push s obj _) _ _ Hs).
  - intros s err _ Hs. exact Hs.
  - intros s _ Hs. unfold on_end, requests_inv.
    match goal with
    | |- context [promise_all opts ?t] =>
        destruct (promise_all_fields opts t) as (_ & _ & -> & ->)
    end.
    destruct (Nat.ltb _ _); [apply requests_inv_flush|]; exact Hs.
  - intros s b r Hs. pose proof Hs as (Hstore & Hnodup & Hpast).
    destruct (on_putData_reply_shape opts s b r)
      as [-> | (stmts & p & Hb & _ & _ & Hps & Hc)]; [exact Hs|].
    assert (Hlt : b < length (publishPromises s)) by (eapply lookup_lt_Some; eauto).
    assert (Hfresh : b ∉ publish_batches (calls s)).
    { intros Hin. destruct (Hpast b Hin) as (q & Hq & Hnot).
      rewrite Hb in Hq. injection Hq as <-. exact (Hnot stmts eq_refl). }
    unfold requests_inv. rewrite Hps, length_insert.
    destruct Hc as [(m & -> & -> & _) | (hashes & _ & _ & -> & ->)].
    + split; [exact Hstore|]. split; [exact Hnodup|].
      apply requests_inv_settled; auto; intros ? [=].
    + rewrite store_batches_app, publish_batches_app. simpl. rewrite app_nil_r.
      split; [exact Hstore|]. split.
      * apply NoDup_app. split; [exact Hnodup|]. split; [|apply NoDup_singleton].
        intros x Hx ->%list_elem_of_singleton. exact (Hfresh Hx).
      * intros b0 [Hb0 | ->%list_elem_of_singleton]%elem_of_app.
        -- apply requests_inv_settled; auto; intros ? [=].
        -- eexists. split; [apply list_lookup_insert_eq, Hlt|]. intros ? [=].
  - intros s b r Hs. pose proof Hs as (Hstore & Hnodup & Hpast).
    destruct (on_publish_reply_shape opts s b r)
      as [-> | (hashes & stmts & p & Hb & Hp & _ & _ & Hps & Hc)]; [exact Hs|].
    assert (Hlt : b < length (publishPromises s)) by (eapply lookup_lt_Some; eauto).
    unfold requests_inv. rewrite Hps, Hc, length_insert.
    split; [exact Hstore|]. split; [exact Hnodup|].
    apply requests_inv_settled; auto; intros ? ->; discriminate.
Qed.

(** X10: every flushed batch is handed to the Publisher once: the store
    requests are those of batches 0, 1, 2, ... in flush order, one per
    promise of [publishPromises]; no batch gets two publish requests, and
    a publish request is sent only for a batch whose store call has been
    answered. *)
Theorem one_publisher_invocation_per_batch (trace : list Event) :
  let s := state_of (run opts trace) in
  store_batches (calls s) = seq 0 (length (publishPromises s)) /\
  NoDup (publish_batches (calls s)) /\
  forall b po stmts,
    PublishCall b po stmts ∈ calls s ->
    exists p, publishPromises s !! b = Some p /\ forall sts, p <> AwaitPutData sts.
Proof.
  intros s. destruct (requests_inv_run trace) as (Hstore & Hnodup & Hpast).
  repeat split; auto.
  intros b po stmts Hin. apply Hpast.
  apply list_elem_of_omap. exists (PublishCall b po stmts). auto.
Qed.

(** X11: when the store answers a waiting batch with as many addresses as
    the batch has statements, one publish request is sent, for that batch
    and with the publish options of the run; its statements are those of
    the batch, index by index, with the returned address as the object and
    the references and tags unchanged.  Nothing is printed. *)
Theorem good_store_answer_publishes_addresses (pre : list Event) (s : State) (b : nat)
    (stmts : list Statement) (hashes : list string) :
  run opts pre = Running s ->
  publishPromises s !! b = Some (AwaitPutData stmts) ->
  length hashes = length stmts ->
  let s' := state_of (run opts (pre ++ [PutDataReply b (Resolved hashes)])) in
  exists stmts',
    publishPromises s' !! b = Some (AwaitPublish hashes stmts') /\
    calls s' = calls s ++ [PublishCall b (publishOpts opts) stmts'] /\
    console s' = console s /\
    length stmts' = length stmts /\
    forall i h st,
      hashes !! i = Some h -> stmts !! i = Some st ->
      stmts' !! i = Some {| object := JStr h; refs := refs st; tags := tags st |}.
Proof.
  intros Hpre Hb Hlen s'.
  assert (Hlt : b < length (publishPromises s)) by (eapply lookup_lt_Some; eauto).
  subst s'. rewrite run_snoc, Hpre. simpl. unfold on_putData_reply. rewrite Hb.
  apply Nat.eqb_eq in Hlen. rewrite Hlen. simpl.
  exists (rewrite_objects hashes stmts). repeat split.
  - apply list_lookup_insert_eq, Hlt.
  - unfold rewrite_objects. apply length_imap.
  - intros i h st. apply rewrite_objects_lookup.
Qed.

(** *** Reports *)

(** X12: the report has one entry per returned statement id, and for a
    non-negative compound size [k] the entry at loop index [g] holds the
    statements at positions [g], [g + 1], ... below [g + k] and below the
    end of the batch, each with the address at its own position, or
    [undefined] when there are fewer addresses. *)
Theorem report_entry_holds_window_at_loop_index (hashes ids : list string)
    (stmts : list Statement) (k : Z) (g : nat) (id : string) :
  (0 <= k)%Z ->
  ids !! g = Some id ->
  length (printBatchResults hashes ids stmts k) = length ids /\
  exists bodies,
    printBatchResults hashes ids stmts k !! g = Some (LogReport id bodies) /\
    length bodies = Nat.min (Z.to_nat k) (length stmts - g) /\
    forall j,
      bodies !! j =
        if decide (j < Z.to_nat k)
        then (fun st => {| object := element hashes (g + j); refs := refs st; tags := tags st |})
               <$> stmts !! (g + j)
        else None.
Proof.
  intros Hk Hg. split; [apply length_imap|].
  eexists. split; [apply printBatchResults_window; eassumption|]. split.
  - rewrite length_imap, length_take, length_drop. reflexivity.
  - intros j. rewrite list_lookup_imap, lookup_take.
    destruct (decide (j < Z.to_nat k)) as [Hj | Hj]; [|reflexivity].
    rewrite lookup_drop. destruct (stmts !! (g + j)) as [st|]; [|reflexivity].
    simpl. unfold element. rewrite lookup_take, decide_True, lookup_drop by exact Hj.
    reflexivity.
Qed.

Lemma single_window {A : Type} (l : list A) (i : nat) (x : A) :
  l !! i = Some x -> take 1 (drop i l) = [x].
Proof.
  revert i. induction l as [|y l IH]; intros [|i] Hi; try discriminate; simpl in *.
  - injection Hi as ->. destruct l; reflexivity.
  - exact (IH i Hi).
Qed.

(** Without compound statements, and with statements that carry their
    addresses, the report pairs statement id [i] with statement [i]. *)
Lemma single_reports (hashes ids : list string) (stmts : list Statement) :
  Forall2 (fun h st => object st = JStr h) hashes stmts ->
  length ids = length stmts ->
  printBatchResults hashes ids stmts 1 = zip_with (fun id st => LogReport id [st]) ids stmts.
Proof.
  intros Hobj Hlen. apply list_eq. intros i.
  unfold printBatchResults. rewrite list_lookup_imap, lookup_zip_with.
  destruct (ids !! i) as [id|] eqn:Hid; [|reflexivity]. simpl.
  assert (Hlt : i < length stmts) by (rewrite <- Hlen; eapply lookup_lt_Some; eauto).
  pose proof Hlt as Hlt'. rewrite <- (Forall2_length _ _ _ Hobj) in Hlt'.
  apply lookup_lt_is_Some in Hlt as [st Hst]. apply lookup_lt_is_Some in Hlt' as [h Hh].
  rewrite Hst. simpl. f_equal. unfold printGroup.
  rewrite !slice_window by lia.
  change (Z.to_nat 1) with 1.
  rewrite (single_window stmts i st Hst), (single_window hashes i h Hh). simpl.
  pose proof (Forall2_lookup_lr _ _ _ _ _ _ Hobj Hh Hst) as Ho.
  destruct st as [o rs ts]. simpl in *. subst o. reflexivity.
Qed.

(** X13: without compound statements ([compound] absent, 0 or 1), when the
    publish call of a batch answers with one statement id per statement,
    the batch is fulfilled and its report pairs, in order, statement id [i]
    with statement [i] of the batch, which carries address [i]; after the
    report comes at most the success message. *)
Theorem default_report_pairs_ids_with_statements (pre : list Event) (s : State) (b : nat)
    (hashes ids : list string) (stmts : list Statement) :
  run opts pre = Running s ->
  publishPromises s !! b = Some (AwaitPublish hashes stmts) ->
  compoundSize_of (publishOpts opts) = 1%Z ->
  length ids = length stmts ->
  let s' := state_of (run opts (pre ++ [PublishReply b (Resolved ids)])) in
  publishPromises s' !! b = Some Fulfilled /\
  Forall2 (fun h st => object st = JStr h) hashes stmts /\
  exists rest,
    console s' = console s ++ zip_with (fun id st => LogReport id [st]) ids stmts ++ rest /\
    (rest = [] \/ rest = [LogAllPublished]).
Proof.
  intros Hpre Hb Hk Hlen s'.
  assert (Hlt : b < length (publishPromises s)) by (eapply lookup_lt_Some; eauto).
  destruct (contents_inv_run pre) as (_ & _ & Hpub & _). rewrite Hpre in Hpub.
  destruct (Hpub b hashes stmts Hb) as (Hobj & _).
  subst s'. rewrite run_snoc, Hpre. simpl. unfold on_publish_reply. rewrite Hb, Hk.
  rewrite (single_reports hashes ids stmts Hobj Hlen).
  split; [|split; [exact Hobj|]].
  - match goal with
    | |- context [settle opts ?t b Fulfilled] =>
        destruct (settle_fields opts t b Fulfilled) as (_ & _ & -> & _)
    end.
    apply list_lookup_insert_eq, Hlt.
  - unfold settle. simpl. destruct (join s); simpl.
    { exists (@nil Console). rewrite app_nil_r. auto. }
    2: { exists (@nil Console). rewrite app_nil_r. auto. }
    destruct (forallb _ _); simpl; [ | exists (@nil Console); rewrite app_nil_r; auto ].
    destruct (dryRun opts); simpl.
    + exists (@nil Console). rewrite !app_nil_r. auto.
    + exists [LogAllPublished]. rewrite <- app_assoc. auto.
Qed.

End FurtherProperties.

(** * The two runtimes *)

Section Runtimes.
Context `{SchemaModule}.
Variable opts : Opts.

Lemma strict_run_app (pre post : list Event) :
  strict_run opts (pre ++ post) = fold_left (strict_step opts) post (strict_run opts pre).
Proof. unfold strict_run. apply fold_left_app. Qed.

Lemma strict_run_snoc (trace : list Event) (ev : Event) :
  strict_run opts (trace ++ [ev]) = strict_step opts (strict_run opts trace) ev.
Proof. rewrite strict_run_app. reflexivity. Qed.

Lemma exited_forever (trace : list Event) (x : Exit) (s : State) :
  fold_left (strict_step opts) trace (Exited x s) = Exited x s.
Proof. induction trace as [|ev trace IH]; [reflexivity | exact IH]. Qed.

(** A turn that does not end the process is a turn of [step]. *)
Lemma strict_step_Going (s s' : State) (ev : Event) :
  strict_step opts (Going s) ev = Going s' <->
  step opts (Running s) ev = Running s' /\
  (rejection_by s ev = None \/ stream_ended s = true).
Proof.
  unfold strict_step.
  destruct (step opts (Running s) ev) as [t | e t].
  - destruct (rejection_by s ev) as [message|].
    + destruct (stream_ended s).
      * split; [intros [= ->]; auto | intros ([= ->] & _); reflexivity].
      * split; [discriminate | intros (_ & [? | ?]); discriminate].
    + split; [intros [= ->]; auto | intros ([= ->] & _); reflexivity].
  - split; [discriminate | intros (? & _); discriminate].
Qed.

(** The process of the strict runtime, while it goes, is the process of
    [step]; it ends at the exception of [step], or at the first answer that
    rejects a batch while the stream flows. *)
Lemma strict_run_lenient (trace : list Event) :
  match strict_run opts trace with
  | Going s => run opts trace = Running s
  | Exited (UncaughtException e) s => run opts trace = Crashed e s
  | Exited (UnhandledRejection message) s =>
      exists pre ev post s0,
        trace = pre ++ ev :: post /\
        strict_run opts pre = Going s0 /\
        run opts pre = Running s0 /\
        stream_ended s0 = false /\
        rejection_by s0 ev = Some message /\
        step opts (Running s0) ev = Running s
  end.
Proof.
  induction trace as [|ev trace IH] using rev_ind; [reflexivity|].
  rewrite strict_run_snoc, run_snoc.
  destruct (strict_run opts trace) as [s | [e | message] s] eqn:Hstrict.
  - rewrite IH. unfold strict_step.
    destruct (step opts (Running s) ev) as [t | e t] eqn:Hstep; [|reflexivity].
    destruct (rejection_by s ev) as [message|] eqn:Hrej; [|reflexivity].
    destruct (stream_ended s) eqn:Hended; [reflexivity|].
    exists trace, ev, [], s. repeat split; assumption.
  - rewrite IH. reflexivity.
  - simpl. destruct IH as (pre & ev0 & post & s0 & -> & Hpre & Hrun & Hended & Hrej & Hstep).
    exists pre, ev0, (post ++ [ev]), s0. rewrite <- app_assoc.
    repeat split; assumption.
Qed.

Lemma strict_refines (trace : list Event) (s : State) :
  strict_run opts trace = Going s -> run opts trace = Running s.
Proof.
  intros Hstrict. pose proof (strict_run_lenient trace) as Hrun.
  rewrite Hstrict in Hrun. exact Hrun.
Qed.

(** Once the stream has ended every promise has the handlers of
    [Promise.all]: the strict runtime goes on as [step] does. *)
Lemma strict_after_end (post : list Event) (s : State) :
  stream_ended s = true ->
  fold_left (strict_step opts) post (Going s)
  = Going (state_of (fold_left (step opts) post (Running s))) /\
  fold_left (step opts) post (Running s)
  = Running (state_of (fold_left (step opts) post (Running s))).
Proof.
  revert s. induction post as [|ev post IH]; intros s Hended; [auto|].
  assert (Hstep : exists s', step opts (Running s) ev = Running s' /\ stream_ended s' = true).
  { destruct ev as [line | err | | b r | b r]; simpl; rewrite ?Hended; eauto.
    - eexists. split; [reflexivity|]. rewrite on_putData_reply_stream_ended. exact Hended.
    - eexists. split; [reflexivity|]. rewrite on_publish_reply_stream_ended. exact Hended. }
  destruct Hstep as (s' & Hstep & Hended').
  assert (Hstrict : strict_step opts (Going s) ev = Going s')
    by (apply strict_step_Going; auto).
  cbn [fold_left]. rewrite Hstrict, Hstep. apply IH, Hended'.
Qed.

(** *** Which answers reject a batch *)

(** A batch is rejected after a turn when it was rejected before, or when
    the event of the turn is an answer to it that rejects it. *)
Lemma rejection_by_spec (s : State) (ev : Event) (b : nat) (message : string) :
  publishPromises (state_of (step opts (Running s) ev)) !! b = Some (Rejected message) <->
  publishPromises s !! b = Some (Rejected message) \/
  (answers b ev = true /\ rejection_by s ev = Some message).
Proof.
  destruct ev as [line | err | | b0 r | b0 r]; cbn [step answers rejection_by].
  - assert (Hsame : publishPromises (state_of (if stream_ended s then Running s
                      else match on_data opts s line with
                           | inl e => Crashed e s
                           | inr s' => Running s'
                           end)) !! b = Some (Rejected message)
                    <-> publishPromises s !! b = Some (Rejected message)).
    { destruct (stream_ended s); [reflexivity|].
      destruct (on_data opts s line) as [e | s'] eqn:Hd; [reflexivity|].
      destruct (on_data_inr opts _ _ _ Hd) as (wki & obj & _ & ->). simpl.
      destruct (accept_shape opts s wki obj) as (_ & [(-> & _) | (_ & _ & -> & _)]);
        [reflexivity|].
      split.
      - intros Hb. rewrite lookup_app in Hb.
        destruct (publishPromises s !! b) as [p|]; [exact Hb|].
        destruct (b - length (publishPromises s)) as [|n]; simpl in Hb; discriminate.
      - intros Hb. rewrite lookup_app, Hb. reflexivity. }
    rewrite Hsame. split; [auto | intros [? | (? & ?)]; [assumption | discriminate]].
  - assert (Hsame : publishPromises (state_of (if stream_ended s then Running s
                      else Running (on_error opts s err))) = publishPromises s)
      by (destruct (stream_ended s); reflexivity).
    rewrite Hsame. split; [auto | intros [? | (? & ?)]; [assumption | discriminate]].
  - assert (Hsame : publishPromises (state_of (if stream_ended s then Running s
                      else Running (on_end opts s))) !! b = Some (Rejected message)
                    <-> publishPromises s !! b = Some (Rejected message)).
    { destruct (stream_ended s); [reflexivity|]. simpl.
      destruct (on_end_shape opts s) as (_ & _ & [(_ & -> & _) | (_ & -> & _)]);
        [reflexivity|].
      split.
      - intros Hb. rewrite lookup_app in Hb.
        destruct (publishPromises s !! b) as [p|]; [exact Hb|].
        destruct (b - length (publishPromises s)) as [|n]; simpl in Hb; discriminate.
      - intros Hb. rewrite lookup_app, Hb. reflexivity. }
    rewrite Hsame. split; [auto | intros [? | (? & ?)]; [assumption | discriminate]].
  - simpl. unfold on_putData_reply.
    destruct (publishPromises s !! b0) as [p0|] eqn:Hb0;
      [|split; [auto | intros [? | (? & ?)]; [assumption | discriminate]]].
    assert (Hlt : b0 < length (publishPromises s)) by (eapply lookup_lt_Some; eauto).
    destruct p0 as [stmts | hashes stmts | | m0];
      try (split; [auto | intros [? | (? & ?)]; [assumption | discriminate]]).
    destruct r as [bodyHashes | m].
    + destruct (Nat.eqb (length bodyHashes) (length stmts)) eqn:Hlen; simpl.
      * destruct (decide (b = b0)) as [-> | Hne].
        -- rewrite list_lookup_insert_eq by exact Hlt. rewrite Hb0.
           split; [discriminate | intros [? | (? & ?)]; discriminate].
        -- rewrite list_lookup_insert_ne by congruence.
           split; [auto | intros [? | (? & ?)]; [assumption | discriminate]].
      * destruct (settle_fields opts s b0
                    (Rejected (count_mismatch (length stmts) (length bodyHashes))))
          as (_ & _ & -> & _).
        destruct (decide (b = b0)) as [-> | Hne].
        -- rewrite list_lookup_insert_eq by exact Hlt. rewrite Hb0, Nat.eqb_refl.
           split; [intros [= <-]; auto | intros [? | (_ & [= <-])]; [discriminate | reflexivity]].
        -- rewrite list_lookup_insert_ne by congruence.
           apply Nat.eqb_neq in Hne. rewrite Nat.eqb_sym, Hne.
           split; [auto | intros [? | (? & ?)]; [assumption | discriminate]].
    + destruct (settle_fields opts s b0 (Rejected m)) as (_ & _ & -> & _).
      destruct (decide (b = b0)) as [-> | Hne].
      * rewrite list_lookup_insert_eq by exact Hlt. rewrite Hb0, Nat.eqb_refl.
        split; [intros [= <-]; auto | intros [? | (_ & [= <-])]; [discriminate | reflexivity]].
      * rewrite list_lookup_insert_ne by congruence.
        apply Nat.eqb_neq in Hne. rewrite Nat.eqb_sym, Hne.
        split; [auto | intros [? | (? & ?)]; [assumption | discriminate]].
  - simpl. unfold on_publish_reply.
    destruct (publishPromises s !! b0) as [p0|] eqn:Hb0;
      [|split; [auto | intros [? | (? & ?)]; [assumption | discriminate]]].
    assert (Hlt : b0 < length (publishPromises s)) by (eapply lookup_lt_Some; eauto).
    destruct p0 as [stmts | hashes stmts | | m0];
      try (split; [auto | intros [? | (? & ?)]; [assumption | discriminate]]).
    destruct r as [statementIds | m].
    + destruct (settle_fields opts
                  (print s (printBatchResults hashes statementIds stmts
                              (compoundSize_of (publishOpts opts)))) b0 Fulfilled)
        as (_ & _ & -> & _). simpl.
      destruct (decide (b = b0)) as [-> | Hne].
      * rewrite list_lookup_insert_eq by exact Hlt. rewrite Hb0.
        split; [discriminate | intros [? | (? & ?)]; discriminate].
      * rewrite list_lookup_insert_ne by congruence.
        split; [auto | intros [? | (? & ?)]; [assumption | discriminate]].
    + destruct (settle_fields opts s b0 (Rejected m)) as (_ & _ & -> & _).
      destruct (decide (b = b0)) as [-> | Hne].
      * rewrite list_lookup_insert_eq by exact Hlt. rewrite Hb0, Nat.eqb_refl.
        split; [intros [= <-]; auto | intros [? | (_ & [= <-])]; [discriminate | reflexivity]].
      * rewrite list_lookup_insert_ne by congruence.
        apply Nat.eqb_neq in Hne. rewrite Nat.eqb_sym, Hne.
        split; [auto | intros [? | (? & ?)]; [assumption | discriminate]].
Qed.

(** No batch is rejected while the strict runtime goes and the stream
    flows. *)
Lemma step_stays_ended (s : State) (ev : Event) :
  stream_ended s = true ->
  exists s', step opts (Running s) ev = Running s' /\ stream_ended s' = true.
Proof.
  intros Hended.
  destruct ev as [line | err | | b r | b r]; simpl; rewrite ?Hended; eauto.
  - eexists. split; [reflexivity|]. rewrite on_putData_reply_stream_ended. exact Hended.
  - eexists. split; [reflexivity|]. rewrite on_publish_reply_stream_ended. exact Hended.
Qed.

Lemma strict_none_rejected (trace : list Event) (s : State) :
  strict_run opts trace = Going s -> stream_ended s = false -> none_rejected s.
Proof.
  revert s. induction trace as [|ev trace IH] using rev_ind; intros s Hstrict Hended.
  - injection Hstrict as <-. intros b message Hb. discriminate.
  - rewrite strict_run_snoc in Hstrict.
    destruct (strict_run opts trace) as [s0 | x s0]; [|discriminate].
    apply strict_step_Going in Hstrict as (Hstep & Hrej).
    destruct (stream_ended s0) eqn:Hended0.
    { destruct (step_stays_ended s0 ev Hended0) as (s' & Hstep' & Hended').
      congruence. }
    destruct Hrej as [Hrej | ?]; [|discriminate].
    intros b message Hb.
    assert (Hs : s = state_of (step opts (Running s0) ev)) by (rewrite Hstep; reflexivity).
    rewrite Hs in Hb. apply rejection_by_spec in Hb as [Hb | (_ & Hb)]; [|congruence].
    exact (IH s0 eq_refl Hended0 b message Hb).
Qed.

(** *** The error log, turn by turn *)

Lemma first_rejection_least (ps : list BatchPromise) (b : nat) (message : string) :
  ps !! b = Some (Rejected message) ->
  (forall b' message', b' < b -> ps !! b' <> Some (Rejected message')) ->
  first_rejection ps = Some message.
Proof.
  revert b. induction ps as [|p ps IH]; intros b Hb Hleast; [discriminate|].
  destruct b as [|b].
  - injection Hb as ->. reflexivity.
  - assert (Hrest : first_rejection ps = Some message).
    { apply (IH b Hb). intros b' message' Hlt. apply (Hleast (S b') message'). lia. }
    destruct p as [| | |m]; simpl; try exact Hrest.
    exfalso. apply (Hleast 0 m); [lia | reflexivity].
Qed.

Lemma first_rejection_flush (ps : list BatchPromise) (stmts : list Statement) :
  first_rejection (ps ++ [AwaitPutData stmts]) = first_rejection ps.
Proof.
  induction ps as [|p ps IH]; [reflexivity|]. destruct p; simpl; auto.
Qed.

Lemma none_rejected_first (s : State) :
  none_rejected s -> first_rejection (publishPromises s) = None.
Proof.
  intros Hnone. apply first_rejection_None, Forall_lookup.
  intros b p Hb. destruct p as [| | |m]; try reflexivity.
  exfalso. exact (Hnone b m Hb).
Qed.

(** [Promise.all], called at the end of the stream, rejects with the
    reason of the rejected promise that comes first in [publishPromises]. *)
Lemma on_end_log (s : State) :
  publish_errors (console s) = [] ->
  (forall b message, first_rejected s b message ->
     publish_errors (console (on_end opts s)) = [message]) /\
  (none_rejected s -> publish_errors (console (on_end opts s)) = []).
Proof.
  intros He. unfold on_end.
  set (s' := if Nat.ltb 0 (length (statementBodies s))
             then publishBatch s (statementBodies s) (statements s) else s).
  assert (Hc : console s' = console s) by (subst s'; destruct (Nat.ltb _ _); reflexivity).
  assert (Hf : first_rejection (publishPromises s') = first_rejection (publishPromises s)).
  { subst s'. destruct (Nat.ltb _ _); [apply first_rejection_flush | reflexivity]. }
  unfold promise_all. rewrite Hf. split.
  - intros b message (Hb & Hleast).
    rewrite (first_rejection_least _ b message Hb Hleast). simpl.
    rewrite publish_errors_app, Hc, He. reflexivity.
  - intros Hnone. rewrite (none_rejected_first s Hnone).
    destruct (forallb _ _); simpl; [|rewrite Hc; exact He].
    rewrite publish_errors_app, Hc, He. destruct (dryRun opts); reflexivity.
Qed.

Lemma settle_log (s : State) (b : nat) (outcome : BatchPromise) :
  publish_errors (console (settle opts s b outcome))
  = publish_errors (console s) ++
    match join s, outcome with
    | Waiting, Rejected message => [message]
    | _, _ => []
    end.
Proof.
  unfold settle.
  destruct (join s), outcome; simpl; rewrite ?app_nil_r; try reflexivity.
  - destruct (forallb _ _); simpl; [|reflexivity].
    rewrite publish_errors_app. destruct (dryRun opts); simpl; rewrite ?app_nil_r; reflexivity.
  - apply publish_errors_app.
Qed.

(** A turn other than the end of the stream adds a line to the error log
    exactly when [Promise.all] is waiting and the event rejects a batch. *)
Lemma turn_log (s : State) (ev : Event) :
  stream_ended s = true \/ ev <> StreamEnd ->
  publish_errors (console (state_of (step opts (Running s) ev)))
  = publish_errors (console s) ++
    match join s, rejection_by s ev with
    | Waiting, Some message => [message]
    | _, _ => []
    end.
Proof.
  intros Hev.
  assert (Hnil : forall j : Join,
            publish_errors (console s) ++
            match j, @None string with Waiting, Some message => [message] | _, _ => [] end
            = publish_errors (console s))
    by (intros j; destruct j; apply app_nil_r).
  destruct ev as [line | err | | b r | b r]; cbn [step rejection_by].
  - rewrite Hnil. destruct (stream_ended s); [reflexivity|].
    destruct (on_data opts s line) as [e | s'] eqn:Hd; [reflexivity|].
    destruct (on_data_inr opts _ _ _ Hd) as (wki & obj & _ & ->). simpl.
    unfold accept. destruct (dryRun opts); simpl.
    + rewrite publish_errors_app. apply app_nil_r.
    + destruct (_ >=? _)%Z; reflexivity.
  - rewrite Hnil. destruct (stream_ended s); [reflexivity|]. simpl.
    rewrite publish_errors_app. apply app_nil_r.
  - rewrite Hnil. destruct Hev as [-> | Hne]; [reflexivity | contradiction].
  - simpl. unfold on_putData_reply.
    destruct (publishPromises s !! b) as [[stmts | hashes stmts | | m0]|];
      rewrite ?Hnil; try reflexivity.
    destruct r as [bodyHashes | m].
    + destruct (Nat.eqb (length bodyHashes) (length stmts)); simpl.
      * rewrite Hnil. reflexivity.
      * apply settle_log.
    + apply settle_log.
  - simpl. unfold on_publish_reply.
    destruct (publishPromises s !! b) as [[stmts | hashes stmts | | m0]|];
      rewrite ?Hnil; try reflexivity.
    destruct r as [statementIds | m].
    + rewrite settle_log. simpl. rewrite publish_errors_app.
      destruct (report_lines_quiet hashes statementIds stmts
                  (compoundSize_of (publishOpts opts))) as (-> & _).
      rewrite Hnil. destruct (join s); rewrite !app_nil_r; reflexivity.
    + apply settle_log.
Qed.

(** *** Isolation on the strict runtime *)

Lemma rejection_by_agree (b : nat) (s s' : State) (ev : Event) :
  answers b ev = false ->
  (forall b', b' <> b -> publishPromises s !! b' = publishPromises s' !! b') ->
  rejection_by s ev = rejection_by s' ev.
Proof.
  intros Hev Hsame.
  destruct ev as [line | err | | b0 r | b0 r]; simpl in *; try reflexivity;
    apply Nat.eqb_neq in Hev; rewrite (Hsame b0 Hev); reflexivity.
Qed.

Lemma strict_isolation (b : nat) (trace : list Event) (s s' t : State) :
  agree_except b s s' ->
  fold_left (strict_step opts) trace (Going s) = Going t ->
  exists t',
    fold_left (strict_step opts) (unanswered b trace) (Going s') = Going t' /\
    agree_except b t t'.
Proof.
  revert s s'. induction trace as [|ev trace IH]; intros s s' Hagree Hrun.
  - injection Hrun as <-. exists s'. split; [reflexivity | exact Hagree].
  - cbn [fold_left] in Hrun.
    destruct (strict_step opts (Going s) ev) as [s1 | x s1] eqn:Hs1;
      [|rewrite exited_forever in Hrun; discriminate].
    apply strict_step_Going in Hs1 as (Hstep & Hrej).
    unfold unanswered. rewrite filter_cons. fold (unanswered b trace).
    destruct (answers b ev) eqn:Hev.
    + rewrite decide_False by discriminate.
      apply (IH s1 s'); [|exact Hrun].
      pose proof (agree_except_own_answer opts b s s' ev Hev Hagree) as Hown.
      rewrite Hstep in Hown. exact Hown.
    + rewrite decide_True by reflexivity. cbn [fold_left].
      pose proof (agree_except_other_event opts b s s' ev Hev Hagree) as (Hcrash & Hag).
      rewrite Hstep in Hcrash, Hag.
      destruct (step opts (Running s') ev) as [s1' | e s1'] eqn:Hstep';
        [|discriminate].
      assert (Hs1' : strict_step opts (Going s') ev = Going s1').
      { apply strict_step_Going. split; [exact Hstep'|].
        destruct Hagree as (Hended & _ & _ & _ & Hsame & _).
        rewrite <- (rejection_by_agree b s s' ev Hev Hsame), <- Hended. exact Hrej. }
      rewrite Hs1'. apply (IH s1 s1'); [exact Hag | exact Hrun].
Qed.

Lemma agree_isolated (b : nat) (p p' : Process) :
  agree_except_proc b p p' -> isolated_from b p p'.
Proof.
  intros (Hcrash & _ & Hb & _ & _ & Hsame & Hcalls).
  split; [exact Hcrash|]. split; [exact Hb|].
  split; [exact (ingest_calls_stored b _ _ Hcalls)|]. split; [exact Hsame|].
  intros c Hc.
  rewrite (ingest_calls_elem b (calls (state_of p)) c Hc),
          (ingest_calls_elem b (calls (state_of p')) c Hc), Hcalls. tauto.
Qed.

Lemma agree_except_refl (b : nat) (s : State) : agree_except b s s.
Proof. repeat split. Qed.

(** C2, amended: what a batch failure does, on either runtime.

    Isolation.  On the runtime of [step], whatever answers batch [b]
    receives, failures included, the run agrees with the run in which [b]
    is never answered on whether and how the process ends, on the buffer,
    on every store request, and on the promises and the requests of every
    other batch.  On the strict runtime the same holds as long as the
    process goes, and its state is then that of [step]; but an answer that
    rejects a batch while the stream flows ends the process on the spot,
    with nothing on the error log, so that while the stream flows no batch
    of a going process is rejected; once the stream has ended no answer
    ends the process.

    Which answers reject: a batch is rejected after a turn exactly when it
    was rejected before or the event is an answer to it that
    [rejection_by] lists: a failed store call, a store answer with the
    wrong number of addresses, a failed publish call.

    The error log.  It never holds more than one message.  While the stream
    flows it is empty.  The turn that ends the stream logs the message of
    the rejected batch that comes first in [publishPromises], and nothing
    when no batch is rejected.  While [Promise.all] waits, a turn logs the
    message of the batch its event rejects, at once, and nothing
    otherwise.  Once [Promise.all] has settled, nothing more is logged. *)
Theorem batch_failure_isolated_and_logged_once (trace : list Event) (b : nat) :
  isolated_from b (run opts trace) (run opts (unanswered b trace)) /\
  (forall t,
     strict_run opts trace = Going t ->
     run opts trace = Running t /\
     (stream_ended t = false -> none_rejected t) /\
     exists t',
       strict_run opts (unanswered b trace) = Going t' /\
       isolated_from b (Running t) (Running t')) /\
  (forall t ev post message,
     strict_run opts trace = Going t ->
     stream_ended t = false ->
     rejection_by t ev = Some message ->
     strict_run opts (trace ++ ev :: post)
     = Exited (UnhandledRejection message) (state_of (step opts (Running t) ev)) /\
     publish_errors (console (state_of (step opts (Running t) ev))) = []) /\
  (forall t post,
     strict_run opts trace = Going t ->
     stream_ended t = true ->
     strict_run opts (trace ++ post) = Going (state_of (run opts (trace ++ post)))) /\
  (forall t ev b0 message,
     publishPromises (state_of (step opts (Running t) ev)) !! b0 = Some (Rejected message) <->
     publishPromises t !! b0 = Some (Rejected message) \/
     (answers b0 ev = true /\ rejection_by t ev = Some message)) /\
  length (publish_errors (console (state_of (run opts trace)))) <= 1 /\
  (forall t ev,
     run opts trace = Running t ->
     let t' := state_of (step opts (Running t) ev) in
     match join t with
     | NotJoined =>
         (ev <> StreamEnd -> publish_errors (console t') = []) /\
         (ev = StreamEnd ->
          (forall b0 message,
             first_rejected t b0 message -> publish_errors (console t') = [message]) /\
          (none_rejected t -> publish_errors (console t') = []))
     | Waiting =>
         publish_errors (console t') =
         match rejection_by t ev with
         | Some message => [message]
         | None => []
         end
     | Settled => publish_errors (console t') = publish_errors (console t)
     end).
Proof.
  assert (Hlog : forall t, run opts trace = Running t -> join_inv opts t).
  { intros t Hrun. pose proof (join_inv_run opts trace) as Hinv.
    rewrite Hrun in Hinv. exact Hinv. }
  split; [|split; [|split; [|split; [|split; [|split]]]]].
  - apply agree_isolated, isolation.
    split; [reflexivity | apply agree_except_refl].
  - intros t Hstrict. split; [exact (strict_refines trace t Hstrict)|].
    split; [exact (strict_none_rejected trace t Hstrict)|].
    destruct (strict_isolation b trace initial initial t (agree_except_refl b initial) Hstrict)
      as (t' & Hrun' & Hagree).
    exists t'. split; [exact Hrun'|].
    apply agree_isolated. split; [reflexivity | exact Hagree].
  - intros t ev post message Hstrict Hended Hrej.
    assert (Hstep : exists t', step opts (Running t) ev = Running t').
    { destruct ev as [line | err | | b0 r | b0 r]; simpl in Hrej; try discriminate;
        simpl; eauto. }
    destruct Hstep as (t' & Hstep). split.
    + rewrite strict_run_app, Hstrict. cbn [fold_left].
      unfold strict_step at 2. rewrite Hstep, Hrej, Hended. apply exited_forever.
    + rewrite turn_log.
      * pose proof (Hlog t (strict_refines trace t Hstrict)) as Hinv.
        unfold join_inv in Hinv. unfold stream_ended in Hended.
        destruct (join t); try discriminate.
        destruct Hinv as (-> & _). reflexivity.
      * right. intros ->. discriminate.
  - intros t post Hstrict Hended.
    rewrite strict_run_app, Hstrict, run_app, (strict_refines trace t Hstrict).
    apply strict_after_end, Hended.
  - intros t ev b0 message. apply rejection_by_spec.
  - apply (unanswered_batch_agrees opts trace b).
  - intros t ev Hrun t'. pose proof (Hlog t Hrun) as Hinv.
    unfold join_inv in Hinv. subst t'.
    destruct (join t) eqn:Hj.
    + destruct Hinv as (He & _). split.
      * intros Hne. rewrite turn_log by (right; exact Hne). rewrite Hj, He. reflexivity.
      * intros ->. cbn [step]. unfold stream_ended. rewrite Hj. simpl.
        apply on_end_log, He.
    + destruct Hinv as (He & _).
      rewrite turn_log by (left; unfold stream_ended; rewrite Hj; reflexivity).
      rewrite Hj, He. destruct (rejection_by t ev); reflexivity.
    + rewrite turn_log by (left; unfold stream_ended; rewrite Hj; reflexivity).
      rewrite Hj. apply app_nil_r.
Qed.

(** *** Which runs abort, on either runtime *)

(** X1: which runs abort.  On the runtime of [step] the process ends
    exactly when a line delivered to the 'data' handler fails one of the
    checks of [rejection], with the error of the first such line.  On the
    strict runtime a going process has met no such line; a process ended
    by an exception has met one, and the exception is the error of the
    first; a process ended by an unhandled rejection has met, while the
    stream flowed and before any such line, an answer that rejects its
    batch.  Conversely, while the stream flows and the process goes, a
    line that fails a check ends it with the error of that check and an
    answer that rejects its batch ends it with the message of the
    rejection; nothing else ends it. *)
Theorem run_aborts_on_first_rejected_line (trace : list Event) :
  crash_of (run opts trace) = first_fatal opts (delivered trace) /\
  match strict_run opts trace with
  | Going s => first_fatal opts (delivered trace) = None
  | Exited (UncaughtException e) s => first_fatal opts (delivered trace) = Some e
  | Exited (UnhandledRejection message) s =>
      exists pre ev post s0,
        trace = pre ++ ev :: post /\
        strict_run opts pre = Going s0 /\
        stream_ended s0 = false /\
        rejection_by s0 ev = Some message /\
        first_fatal opts (delivered pre) = None
  end /\
  (forall pre ev post s0,
     trace = pre ++ ev :: post ->
     strict_run opts pre = Going s0 ->
     match ev with
     | StreamData line =>
         match rejection opts line with
         | Some e =>
             if stream_ended s0 then exists s, strict_run opts (pre ++ [ev]) = Going s
             else strict_run opts trace = Exited (UncaughtException e) s0
         | None => exists s, strict_run opts (pre ++ [ev]) = Going s
         end
     | _ =>
         match rejection_by s0 ev with
         | Some message =>
             if stream_ended s0 then exists s, strict_run opts (pre ++ [ev]) = Going s
             else strict_run opts trace
                  = Exited (UnhandledRejection message) (state_of (step opts (Running s0) ev))
         | None => exists s, strict_run opts (pre ++ [ev]) = Going s
         end
     end).
Proof.
  split; [apply crash_is_first_fatal|]. split.
  - pose proof (strict_run_lenient trace) as Hrun.
    destruct (strict_run opts trace) as [s | [e | message] s].
    + rewrite <- crash_is_first_fatal, Hrun. reflexivity.
    + rewrite <- crash_is_first_fatal, Hrun. reflexivity.
    + destruct Hrun as (pre & ev & post & s0 & -> & Hpre & Hrun & Hended & Hrej & _).
      exists pre, ev, post, s0. repeat split; try assumption.
      rewrite <- crash_is_first_fatal, Hrun. reflexivity.
  - intros pre ev post s0 -> Hpre.
    rewrite strict_run_snoc, strict_run_app, Hpre. cbn [fold_left].
    destruct ev as [line | err | | b0 r | b0 r]; unfold strict_step;
      cbn [step rejection_by].
    + destruct (rejection opts line) as [e|] eqn:Hrej.
      * destruct (stream_ended s0); [eauto|].
        apply (rejection_Some opts s0) in Hrej. rewrite Hrej. apply exited_forever.
      * destruct (stream_ended s0); [eauto|].
        destruct (on_data opts s0 line) as [e | s'] eqn:Hd; [|eauto].
        apply (rejection_Some opts s0) in Hd. congruence.
    + destruct (stream_ended s0); eauto.
    + destruct (stream_ended s0); eauto.
    + destruct (match publishPromises s0 !! b0 with
                | Some (AwaitPutData stmts) => _
                | _ => _
                end) as [message|]; [|eauto].
      destruct (stream_ended s0); [eauto|]. apply exited_forever.
    + destruct (match publishPromises s0 !! b0 with
                | Some (AwaitPublish _ _) => _
                | _ => _
                end) as [message|]; [|eauto].
      destruct (stream_ended s0); [eauto|]. apply exited_forever.
Qed.

(** *** Dry runs, with validity as the specification words it *)





End Runtimes.

(** ** The putData command, further *)

Section PutDataFurther.
Variable batchSize : Z.
Variable streamName : string.

(** X14: when the number of records read is a multiple of [batchSize]
    (which is at least one), nothing is left in [items]: every record has
    been sent, in order, in calls of [batchSize] records. *)
Theorem whole_batches_leave_nothing (trace : list PutData.Event) :
  (1 <= batchSize)%Z ->
  length (PutData.records trace) mod Z.to_nat batchSize = 0 ->
  let s := PutData.run batchSize streamName trace in
  PutData.items s = [] /\
  concat (PutData.sent s) = PutData.records trace /\
  Forall (fun batch => Z.of_nat (length batch) = batchSize) (PutData.sent s).
Proof.
  intros Hsize Hmod s.
  destruct (putData_chunks batchSize streamName trace) as (Hcat & Hfull & Hlen).
  fold s in Hcat, Hfull, Hlen.
  replace (Z.to_nat (Z.max 1 batchSize)) with (Z.to_nat batchSize) in * by lia.
  set (size := Z.to_nat batchSize) in *.
  pose proof (length_concat_uniform size _ Hfull) as Hsent.
  assert (Hitems : length (PutData.items s) = 0).
  { rewrite <- Hcat, length_app, Hsent, Nat.add_comm, Nat.Div0.mod_add in Hmod.
    rewrite Nat.mod_small in Hmod by exact Hlen. exact Hmod. }
  destruct (PutData.items s) as [|x l] eqn:Hi; [|discriminate].
  rewrite app_nil_r in Hcat. repeat split; auto.
  eapply Forall_impl; [exact Hfull|]. intros batch Hb. simpl in Hb. lia.
Qed.

Lemma singletons_of_concat {A : Type} (l : list (list A)) :
  Forall (fun batch => length batch = 1) l -> l = map (fun x => [x]) (concat l).
Proof.
  induction 1 as [|batch l Hb _ IH]; [reflexivity|].
  destruct batch as [|x [|y batch]]; try discriminate.
  simpl. f_equal. exact IH.
Qed.

(** X15: with a [batchSize] of one or less, zero and negative values
    included, every record is sent at once in a call of its own and
    [items] is empty after every event. *)
Theorem small_batchSize_sends_each_record (trace : list PutData.Event) :
  (batchSize <= 1)%Z ->
  let s := PutData.run batchSize streamName trace in
  PutData.sent s = map (fun obj => [obj]) (PutData.records trace) /\
  PutData.items s = [].
Proof.
  intros Hsize s.
  destruct (putData_chunks batchSize streamName trace) as (Hcat & Hfull & Hlen).
  fold s in Hcat, Hfull, Hlen.
  replace (Z.to_nat (Z.max 1 batchSize)) with 1 in * by lia.
  destruct (PutData.items s) as [|x l] eqn:Hi; [|simpl in Hlen; lia].
  rewrite app_nil_r in Hcat. split; [|reflexivity].
  rewrite <- Hcat. apply singletons_of_concat, Hfull.
Qed.

(** X16: answers of the node, failed or not, read errors and the end of the
    stream only print: what is sent and what is buffered is what the
    records alone determine, so a failed call does not stop later calls.
    The console holds, in event order, the addresses of every answered
    call, the message of every failed call and the read errors. *)
Theorem answers_and_errors_only_print (trace : list PutData.Event) :
  let s := PutData.run batchSize streamName trace in
  let s0 := PutData.run batchSize streamName (map PutData.Data (PutData.records trace)) in
  PutData.sent s = PutData.sent s0 /\
  PutData.items s = PutData.items s0 /\
  PutData.output s = concat (map (putData_lines streamName) trace) /\
  PutData.output s0 = [].
Proof.
  induction trace as [|ev trace IH] using rev_ind; cbv zeta in *; [repeat split|].
  unfold PutData.records. rewrite omap_app, !map_app, concat_app.
  fold (PutData.records trace).
  rewrite putData_run_snoc.
  set (s := PutData.run batchSize streamName trace) in *.
  destruct IH as (Hsent & Hitems & Hout & Hout0).
  destruct ev as [obj | err | | [hashes | message]]; simpl;
    rewrite ?app_nil_r; try (rewrite Hout; auto; fail).
  rewrite putData_run_snoc.
  set (s0 := PutData.run batchSize streamName (map PutData.Data (PutData.records trace))) in *.
  simpl. unfold PutData.on_data. rewrite Hitems.
  destruct (_ >=? _)%Z; simpl; rewrite ?Hsent; auto.
Qed.

End PutDataFurther.

(** ** The further properties at concrete runs *)

Lemma unparseable_or_invalid_line_aborts_witness :
  run (demo_opts 2 false None) ([] ++ StreamData (Unparseable "{oops") :: three_records)
  = Crashed (ParseError "{oops") initial /\
  run (demo_opts 2 false None) ([] ++ StreamData (Parsed None JNull) :: three_records)
  = Crashed (ValidationError "is not of a type(s) object" JNull) initial.
Proof.
  destruct (@unparseable_or_invalid_line_aborts demo_schema (demo_opts 2 false None)
              [] three_records initial eq_refl eq_refl) as (Hparse & Hvalid).
  split; [apply Hparse | apply Hvalid; reflexivity].
Defined.

Lemma matching_schema_link_aborts_witness :
  run (demo_opts 2 false None)
    ([] ++ StreamData (Parsed (Some "2") (rec_linked "QmSchema")) :: three_records)
  = Crashed (SchemaMismatch (JObj [("/", JStr "QmSchema")]) "QmSchema") initial.
Proof.
  refine (@matching_schema_link_aborts demo_schema (demo_opts 2 false None)
            [] three_records initial "2" (rec_linked "QmSchema")
            eq_refl eq_refl eq_refl eq_refl _ (or_intror eq_refl)).
  discriminate.
Defined.

Lemma all_batches_fulfilled_prints_success_witness :
  successes (console (state_of (run (demo_opts 2 false None) [StreamEnd]))) = 1.
Proof.
  refine (proj1 (@all_batches_fulfilled_prints_success demo_schema (demo_opts 2 false None)
                   [StreamEnd] eq_refl _)).
  constructor.
Defined.

Lemma dry_run_console_witness :
  Forall (dry_line (demo_opts 1 true None))
    (console (state_of (run (demo_opts 1 true None) three_records))).
Proof.
  exact (@dry_run_console demo_schema (demo_opts 1 true None) three_records eq_refl).
Defined.

Lemma failed_store_call_rejects_batch_witness :
  publishPromises
    (state_of (run (demo_opts 1 false None)
                 ([StreamData (Parsed (Some "1") rec_a)] ++
                  PutDataReply 0 (Failed "boom") :: [StreamEnd]))) !! 0
  = Some (Rejected "boom").
Proof.
  exact (proj1 (@failed_store_call_rejects_batch demo_schema (demo_opts 1 false None)
                  [StreamData (Parsed (Some "1") rec_a)] [StreamEnd]
                  (state_of (run (demo_opts 1 false None)
                               [StreamData (Parsed (Some "1") rec_a)]))
                  0 _ "boom" eq_refl eq_refl)).
Defined.

Lemma failed_publish_call_rejects_batch_witness :
  publishPromises
    (state_of (run (demo_opts 1 false None)
                 ([StreamData (Parsed (Some "1") rec_a); PutDataReply 0 (Resolved ["h0"])] ++
                  PublishReply 0 (Failed "boom") :: [StreamEnd]))) !! 0
  = Some (Rejected "boom").
Proof.
  exact (proj1 (@failed_publish_call_rejects_batch demo_schema (demo_opts 1 false None)
                  [StreamData (Parsed (Some "1") rec_a); PutDataReply 0 (Resolved ["h0"])]
                  [StreamEnd]
                  (state_of (run (demo_opts 1 false None)
                               [StreamData (Parsed (Some "1") rec_a);
                                PutDataReply 0 (Resolved ["h0"])]))
                  0 ["h0"] _ "boom" eq_refl eq_refl)).
Defined.

Lemma published_statements_are_addressed_witness :
  exists h id,
    object (stored "h1" "2") = JStr h /\ refs (stored "h1" "2") = [id] /\
    id <> "" /\ tags (stored "h1" "2") = [].
Proof.
  assert (Hcall : PublishCall 0 {| namespace := "images.demo"; compound := Some 2%Z |}
                    [stored "h0" "1"; stored "h1" "2"; stored "h2" "3"]
                  ∈ calls (state_of (run (demo_opts 3 false (Some 2%Z)) compound_run)))
    by (vm_compute; repeat constructor).
  assert (Hst : stored "h1" "2" ∈ [stored "h0" "1"; stored "h1" "2"; stored "h2" "3"])
    by repeat constructor.
  exact (proj2 (@published_statements_are_addressed demo_schema
                  (demo_opts 3 false (Some 2%Z)) compound_run _ _ _ _ Hcall Hst)).
Defined.

Lemma good_store_answer_publishes_addresses_witness :
  exists stmts',
    publishPromises
      (state_of (run (demo_opts 1 false None)
                   ([StreamData (Parsed (Some "1") rec_a)] ++
                    [PutDataReply 0 (Resolved ["h0"])]))) !! 0
    = Some (AwaitPublish ["h0"] stmts').
Proof.
  destruct (@good_store_answer_publishes_addresses demo_schema (demo_opts 1 false None)
              [StreamData (Parsed (Some "1") rec_a)]
              (state_of (run (demo_opts 1 false None) [StreamData (Parsed (Some "1") rec_a)]))
              0 _ ["h0"] eq_refl eq_refl eq_refl) as (stmts' & Hp & _).
  exists stmts'. exact Hp.
Defined.

Lemma report_entry_holds_window_at_loop_index_witness :
  length (printBatchResults ["h0"; "h1"; "h2"] ["s0"; "s1"]
            [stored "h0" "1"; stored "h1" "2"; stored "h2" "3"] 2) = 2.
Proof.
  assert (Hk : (0 <= 2)%Z) by discriminate.
  exact (proj1 (report_entry_holds_window_at_loop_index ["h0"; "h1"; "h2"] ["s0"; "s1"]
                  [stored "h0" "1"; stored "h1" "2"; stored "h2" "3"] 2 1 "s1"
                  Hk eq_refl)).
Defined.

Lemma default_report_pairs_ids_with_statements_witness :
  publishPromises
    (state_of (run (demo_opts 1 false None)
                 ([StreamData (Parsed (Some "1") rec_a); PutDataReply 0 (Resolved ["h0"])] ++
                  [PublishReply 0 (Resolved ["s0"])]))) !! 0
  = Some Fulfilled.
Proof.
  exact (proj1 (@default_report_pairs_ids_with_statements demo_schema (demo_opts 1 false None)
                  [StreamData (Parsed (Some "1") rec_a); PutDataReply 0 (Resolved ["h0"])]
                  (state_of (run (demo_opts 1 false None)
                               [StreamData (Parsed (Some "1") rec_a);
                                PutDataReply 0 (Resolved ["h0"])]))
                  0 ["h0"] ["s0"] _ eq_refl eq_refl eq_refl eq_refl)).
Defined.

Lemma whole_batches_leave_nothing_witness :
  PutData.items
    (PutData.run 2 "standard input" [PutData.Data rec_a; PutData.Data rec_b]) = [].
Proof.
  assert (Hsize : (1 <= 2)%Z) by discriminate.
  exact (proj1 (whole_batches_leave_nothing 2 "standard input"
                  [PutData.Data rec_a; PutData.Data rec_b] Hsize eq_refl)).
Defined.

Lemma small_batchSize_sends_each_record_witness :
  PutData.sent (PutData.run 0 "standard input" [PutData.Data rec_a; PutData.Data rec_b])
  = [[rec_a]; [rec_b]].
Proof.
  assert (Hsize : (0 <= 1)%Z) by discriminate.
  exact (proj1 (small_batchSize_sends_each_record 0 "standard input"
                  [PutData.Data rec_a; PutData.Data rec_b] Hsize)).
Defined.


Lemma batch_failure_isolated_and_logged_once_witness :
  strict_run (demo_opts 1 false None) early_failure
  = Exited (UnhandledRejection "e0")
      (state_of (run (demo_opts 1 false None) (take 2 early_failure))) /\
  publish_errors (console (state_of (run (demo_opts 1 false None) (take 3 early_failure))))
  = [] /\
  publish_errors (console (state_of (run (demo_opts 1 false None) early_failure)))
  = ["e0"] /\
  publish_errors (console (state_of (run (demo_opts 1 false None) (take 4 two_failures))))
  = ["e0"] /\
  publish_errors (console (state_of (run (demo_opts 1 false None) two_failures)))
  = ["e0"] /\
  publish_errors (console (state_of (run (demo_opts 1 false None) two_early_failures)))
  = ["e0"].
Proof.
  destruct (@batch_failure_isolated_and_logged_once demo_schema (demo_opts 1 false None)
              (take 4 two_early_failures) 0)
    as (_ & _ & _ & _ & _ & _ & Hend2).
  destruct (Hend2 (state_of (run (demo_opts 1 false None) (take 4 two_early_failures)))
              StreamEnd eq_refl) as (_ & Hfirst2).
  destruct (Hfirst2 eq_refl) as (Hfirst2' & _).
  assert (Hleast2 : first_rejected
                      (state_of (run (demo_opts 1 false None) (take 4 two_early_failures)))
                      0 "e0").
  { split; [reflexivity|]. intros b' message' Hlt. lia. }
  destruct (@batch_failure_isolated_and_logged_once demo_schema (demo_opts 1 false None)
              (take 1 early_failure) 0)
    as (_ & _ & Hexit & _).
  destruct (Hexit (state_of (run (demo_opts 1 false None) (take 1 early_failure)))
              (PutDataReply 0 (Failed "e0")) (drop 2 early_failure) "e0"
              eq_refl eq_refl eq_refl) as (Hstrict & _).
  destruct (@batch_failure_isolated_and_logged_once demo_schema (demo_opts 1 false None)
              (take 2 early_failure) 0)
    as (_ & _ & _ & _ & _ & _ & Hflow).
  destruct (Hflow (state_of (run (demo_opts 1 false None) (take 2 early_failure)))
              (StreamData (Parsed (Some "2") rec_b)) eq_refl) as (Hquiet & _).
  destruct (@batch_failure_isolated_and_logged_once demo_schema (demo_opts 1 false None)
              (take 3 early_failure) 0)
    as (_ & _ & _ & _ & _ & _ & Hend).
  destruct (Hend (state_of (run (demo_opts 1 false None) (take 3 early_failure)))
              StreamEnd eq_refl) as (_ & Hfirst).
  destruct (Hfirst eq_refl) as (Hfirst0 & _).
  assert (Hleast : first_rejected
                     (state_of (run (demo_opts 1 false None) (take 3 early_failure))) 0 "e0").
  { split; [reflexivity|]. intros b' message' Hlt. lia. }
  destruct (@batch_failure_isolated_and_logged_once demo_schema (demo_opts 1 false None)
              (take 3 two_failures) 0)
    as (_ & _ & _ & _ & _ & _ & Hwait).
  destruct (@batch_failure_isolated_and_logged_once demo_schema (demo_opts 1 false None)
              (take 4 two_failures) 0)
    as (_ & _ & _ & _ & _ & _ & Hsettled).
  split; [exact Hstrict|].
  split; [exact (Hquiet ltac:(discriminate))|].
  split; [exact (Hfirst0 0 "e0" Hleast)|].
  split; [|split].
  - exact (Hwait (state_of (run (demo_opts 1 false None) (take 3 two_failures)))
             (PutDataReply 0 (Failed "e0")) eq_refl).
  - exact (Hsettled (state_of (run (demo_opts 1 false None) (take 4 two_failures)))
             (PutDataReply 1 (Failed "e1")) eq_refl).
  - exact (Hfirst2' 0 "e0" Hleast2).
Defined.

Lemma run_aborts_on_first_rejected_line_witness :
  crash_of (run (demo_opts 1 false None) invalid_then_valid) = Some (ParseError "{") /\
  strict_run (demo_opts 1 false None) invalid_then_valid
  = Exited (UncaughtException (ParseError "{")) initial /\
  strict_run (demo_opts 1 false None) early_failure
  = Exited (UnhandledRejection "e0")
      (state_of (run (demo_opts 1 false None) (take 2 early_failure))).
Proof.
  destruct (@run_aborts_on_first_rejected_line demo_schema (demo_opts 1 false None)
              invalid_then_valid) as (Hcrash & _ & Hturn).
  destruct (@run_aborts_on_first_rejected_line demo_schema (demo_opts 1 false None)
              early_failure) as (_ & _ & Hturn').
  split; [exact Hcrash|]. split.
  - exact (Hturn [] (StreamData (Unparseable "{")) (drop 1 invalid_then_valid) initial
             eq_refl eq_refl).
  - exact (Hturn' (take 1 early_failure) (PutDataReply 0 (Failed "e0"))
             (drop 2 early_failure)
             (state_of (run (demo_opts 1 false None) (take 1 early_failure)))
             eq_refl eq_refl).
Defined.
